(** * sorcery.core: call-site introspection

    A shallow embedding of [src/sorcery/core.py] and the properties of its
    call-site resolution, assigned-name derivation, environment lookup,
    document cache and frame walking. *)

From Stdlib Require Import ZArith List Bool Lia.
From stdpp Require Import base tactics option list strings pretty gmap.

Set Warnings "-register-all".

Open Scope string_scope.
Open Scope list_scope.
Open Scope Z_scope.

(** ** Exceptions and fallible results *)

(** The exception classes the module (and the helpers it imports) raise,
    each with its message. *)
Inductive exn : Type :=
| ValueError (msg : string)
| TypeError (msg : string)
| NameError (name : string)
| AssertionError (msg : string)
| AttributeError (msg : string)
| IOError (msg : string)
| SyntaxError (msg : string).

Inductive result (A : Type) : Type :=
| Ok (a : A)
| Raise (e : exn).
Arguments Ok {A} a.
Arguments Raise {A} e.

Global Instance result_ret : MRet result := fun A a => Ok a.
Global Instance result_bind : MBind result := fun A B k r =>
  match r with
  | Ok a => k a
  | Raise e => Raise e
  end.

(** [[f(x) for x in l]] where [f] may raise: the first failure propagates. *)
Fixpoint mapR {A B} (f : A -> result B) (l : list A) : result (list B) :=
  match l with
  | [] => Ok []
  | x :: l' => y ← f x; ys ← mapR f l'; Ok (y :: ys)
  end.

(** [[x for x in l if c(x)]] where the condition [c] may raise. *)
Fixpoint filterR {A} (c : A -> result bool) (l : list A) : result (list A) :=
  match l with
  | [] => Ok []
  | x :: l' =>
      b ← c x; xs ← filterR c l'; Ok (if b : bool then x :: xs else xs)
  end.

(** [littleutils.only] on a sized collection: the single element, or an
    [AssertionError] that reports how many there were. *)
Definition only {A} (it : list A) : result A :=
  match it with
  | [x] => Ok x
  | _ => Raise (AssertionError
                  ("Expected one value, found " +:+ pretty (length it)))
  end.

(** ** Syntax trees *)

(** The node classes of [ast] that the module inspects by [isinstance] or
    by field, and one catch-all per remaining family: [OtherStmt] is any
    other [ast.stmt]; [OtherExpr] is any other node that carries a
    [lineno] and is not a statement (the remaining expressions, and
    nodes such as [arg] or [excepthandler]); [OtherNode] is any other node
    without a [lineno] (such as [arguments]).  The module tells none of
    the classes inside a family apart.  Expression contexts ([Load],
    [Store]) are left out: they carry no [lineno] and are not calls, so
    neither the line index nor any filter of the module sees them. *)
Inductive AST : Type :=
| ModuleNode (body : list AST)
| Assign (lineno : Z) (targets : list AST) (value : AST)
| For (lineno : Z) (target iter : AST) (body orelse : list AST)
| Expr (lineno : Z) (value : AST)
| OtherStmt (lineno : Z) (children : list AST)
| Name (lineno : Z) (id : string)
| Attribute (lineno : Z) (value : AST) (attr : string)
| Call (lineno : Z) (func : AST) (args keywords : list AST)
| Tuple (lineno : Z) (elts : list AST)
| List (lineno : Z) (elts : list AST)
| OtherExpr (lineno : Z) (children : list AST)
| comprehension (target iter : AST) (ifs : list AST)
| OtherNode (children : list AST).

(** [ast.iter_child_nodes]: the child nodes in field order. *)
Definition iter_child_nodes (node : AST) : list AST :=
  match node with
  | ModuleNode body => body
  | Assign _ targets value => targets ++ [value]
  | For _ target iter body orelse => target :: iter :: body ++ orelse
  | Expr _ value => [value]
  | OtherStmt _ children => children
  | Name _ _ => []
  | Attribute _ value _ => [value]
  | Call _ func args keywords => func :: args ++ keywords
  | Tuple _ elts => elts
  | List _ elts => elts
  | OtherExpr _ children => children
  | comprehension target iter ifs => target :: iter :: ifs
  | OtherNode children => children
  end.

(** [node.lineno] where [hasattr(node, 'lineno')]. *)
Definition get_lineno (node : AST) : option Z :=
  match node with
  | Assign l _ _ | For l _ _ _ _ | Expr l _ | OtherStmt l _
  | Name l _ | Attribute l _ _ | Call l _ _ _ | Tuple l _ | List l _
  | OtherExpr l _ => Some l
  | ModuleNode _ | comprehension _ _ _ | OtherNode _ => None
  end.

(** [isinstance(node, ast.stmt)] *)
Definition is_stmt (node : AST) : bool :=
  match node with
  | Assign _ _ _ | For _ _ _ _ _ | Expr _ _ | OtherStmt _ _ => true
  | _ => false
  end.

(** [isinstance(node, ast.comprehension)] *)
Definition is_comprehension (node : AST) : bool :=
  match node with
  | comprehension _ _ _ => true
  | _ => false
  end.

(** The class name, as it shows in [repr(node)] (the address is left out). *)
Definition class_name (node : AST) : string :=
  match node with
  | ModuleNode _ => "Module"
  | Assign _ _ _ => "Assign"
  | For _ _ _ _ _ => "For"
  | Expr _ _ => "Expr"
  | OtherStmt _ _ => "stmt"
  | Name _ _ => "Name"
  | Attribute _ _ _ => "Attribute"
  | Call _ _ _ _ => "Call"
  | Tuple _ _ => "Tuple"
  | List _ _ => "List"
  | OtherExpr _ _ => "expr"
  | comprehension _ _ _ => "comprehension"
  | OtherNode _ => "AST"
  end.

(** The number of nodes of a subtree. *)
Fixpoint ast_size (node : AST) : nat :=
  let sizes := sum_list_with ast_size in
  match node with
  | ModuleNode body => S (sizes body)
  | Assign _ targets value => S (sizes targets + ast_size value)
  | For _ target iter body orelse =>
      S (ast_size target + ast_size iter + sizes body + sizes orelse)
  | Expr _ value => S (ast_size value)
  | OtherStmt _ children => S (sizes children)
  | Name _ _ => 1%nat
  | Attribute _ value _ => S (ast_size value)
  | Call _ func args keywords => S (ast_size func + sizes args + sizes keywords)
  | Tuple _ elts => S (sizes elts)
  | List _ elts => S (sizes elts)
  | OtherExpr _ children => S (sizes children)
  | comprehension target iter ifs =>
      S (ast_size target + ast_size iter + sizes ifs)
  | OtherNode children => S (sizes children)
  end.

(** ** Nodes with parent links

    [FileInfo.__init__] sets [child.parent = node] on every child it
    meets.  A node object of a document is a subtree together with its
    parent link; [pos] is its address in the tree (child indices from the
    node up to the root) and stands for the object's identity. *)
Inductive pnode : Type :=
  PNode { pos : list nat; ast : AST; parent : option pnode }.

(** [a is b], for two nodes of one document. *)
Definition node_is (a b : pnode) : bool := bool_decide (pos a = pos b).

Definition root_node (tree : AST) : pnode := PNode [] tree None.

(** The children of a node, each with its parent link set. *)
Definition pchildren (node : pnode) : list pnode :=
  imap (fun i child => PNode (i :: pos node) child (Some node))
       (iter_child_nodes (ast node)).

(** [ast.walk]: breadth first, from a queue.  The loop runs once per node
    of the subtree; [fuel] bounds the number of iterations. *)
Fixpoint walk_todo (fuel : nat) (todo : list pnode) : list pnode :=
  match fuel, todo with
  | S fuel', node :: todo' => node :: walk_todo fuel' (todo' ++ pchildren node)
  | _, _ => []
  end.

Definition walk (node : pnode) : list pnode :=
  walk_todo (ast_size (ast node)) [node].

(** ** FileInfo *)

(** [self.nodes_by_line[node.lineno].append(node)] on the
    [defaultdict(list)], for a node that has a [lineno]. *)
Definition index_node (nodes_by_line : gmap Z (list pnode)) (node : pnode)
  : gmap Z (list pnode) :=
  match get_lineno (ast node) with
  | Some lineno =>
      <[lineno := default [] (nodes_by_line !! lineno) ++ [node]]> nodes_by_line
  | None => nodes_by_line
  end.

Record FileInfo : Type := {
  fi_id : nat;                          (* identity of the instance *)
  source : string;
  tree : AST;
  nodes_by_line : gmap Z (list pnode);
  path : string
}.

(** The body of [FileInfo.__init__] once the file is read and parsed: one
    walk over the tree sets the parent links and fills the line index. *)
Definition FileInfo_init (id : nat) (path source : string) (tree : AST)
  : FileInfo :=
  {| fi_id := id;
     source := source;
     tree := tree;
     nodes_by_line := foldl index_node ∅ (walk (root_node tree));
     path := path |}.

(** [self.nodes_by_line[line]]: a missing line reads as the empty list. *)
Definition line_nodes (self : FileInfo) (line : Z) : list pnode :=
  default [] (nodes_by_line self !! line).

(** [_attr_call_at], [_calls_in_stmt_at_line], [stmt_containing_node] and
    [nearest_assigned_names] are wrapped in [lru_cache].  They are
    functions of a document that no longer changes, a cached answer is
    the computed one and a raised exception is not cached, so they are
    given here without their cache. *)

(** The filter of [_attr_call_at]: a call whose callee is an attribute
    access with the given trailing name. *)
Definition is_attr_call (name : string) (node : pnode) : bool :=
  match ast node with
  | Call _ (Attribute _ _ attr) _ _ => String.eqb attr name
  | _ => false
  end.

Definition _attr_call_at (self : FileInfo) (line : Z) (name : string)
  : result (option pnode) :=
  let options := List.filter (is_attr_call name) (line_nodes self line) in
  match options with
  | [] => Ok None
  | [call] => Ok (Some call)
  | _ => Raise (ValueError ("Found " +:+ pretty (length options)
                              +:+ " possible calls to " +:+ name))
  end.

Definition no_parent (node : AST) : exn :=
  AttributeError ("'" +:+ class_name node +:+ "' object has no attribute 'parent'").

(** [while not stop(node): node = node.parent], the loop shared by
    [stmt_containing_node] and [nearest_assigned_names].  The root has no
    [parent] attribute. *)
Fixpoint ascend_until (stop : AST -> bool) (node : pnode) : result pnode :=
  match node with
  | PNode _ a up =>
      if stop a then Ok node
      else match up with
           | Some p => ascend_until stop p
           | None => Raise (no_parent a)
           end
  end.

Definition stmt_containing_node (node : pnode) : result pnode :=
  ascend_until is_stmt node.

(** The set [{stmt_containing_node(node) for node in ...}]: nodes hash and
    compare by identity. *)
Fixpoint node_set (nodes : list pnode) : list pnode :=
  match nodes with
  | [] => []
  | n :: rest =>
      if existsb (node_is n) rest then node_set rest else n :: node_set rest
  end.

(** The filter of [_calls_in_stmt_at_line]: a call whose callee is a bare
    identifier. *)
Definition is_plain_call (node : pnode) : bool :=
  match ast node with
  | Call _ (Name _ _) _ _ => true
  | _ => false
  end.

Definition _calls_in_stmt_at_line (self : FileInfo) (lineno : Z)
  : result (list pnode) :=
  stmts ← mapR stmt_containing_node (line_nodes self lineno);
  stmt ← only (node_set stmts);
  Ok (List.filter is_plain_call (walk stmt)).

(** ** Assigned names *)

Definition node_name (node : AST) : result string :=
  match node with
  | Name _ id => Ok id
  | Attribute _ _ attr => Ok attr
  | _ => Raise (TypeError ("Cannot extract name from <ast." +:+ class_name node
                             +:+ " object>"))
  end.

Definition node_names (node : AST) : result (list string) :=
  match node with
  | Tuple _ elts | List _ elts => mapR node_name elts
  | _ => name ← node_name node; Ok [name]
  end.

(** The loop of [nearest_assigned_names]: up to the first statement or
    comprehension clause. *)
Definition stmt_or_comprehension (node : pnode) : result pnode :=
  ascend_until (fun a => is_stmt a || is_comprehension a) node.

Definition assignment_target (node : AST) : result AST :=
  match node with
  | Assign _ targets _ => only targets
  | For _ target _ _ _ => Ok target
  | comprehension target _ _ => Ok target
  | _ => Raise (TypeError "No assignment found")
  end.

Definition nearest_assigned_names (node : pnode)
  : result (list string * pnode) :=
  node ← stmt_or_comprehension node;
  target ← assignment_target (ast node);
  names ← node_names target;
  Ok (names, node).

(** ** Frames and name resolution *)

(** A Python object as the module sees it: its identity, and what its
    class does on [==] ([None] when the class keeps [object.__eq__], which
    compares identities; otherwise the truth value of [__eq__] on the
    identity of the other operand). *)
Record object : Type := { ob_id : nat; ob_eq : option (nat -> bool) }.

(** [a is b] *)
Definition py_is (a b : object) : bool := Nat.eqb (ob_id a) (ob_id b).

(** [a == b], for a right operand whose class does not override [__eq__]
    (as [Spell] does not): the left operand's [__eq__] decides. *)
Definition py_eq (a b : object) : bool :=
  match ob_eq a with
  | Some eq => eq (ob_id b)
  | None => py_is a b
  end.

Record code : Type := {
  co_filename : string;
  co_name : string;
  co_firstlineno : Z
}.

Record FrameType : Type := {
  f_code : code;
  f_lineno : Z;
  f_locals : gmap string object;
  f_globals : gmap string object;
  f_builtins : gmap string object
}.

(** The loop of [_resolve_var] over the namespaces, in order. *)
Fixpoint resolve_in (namespaces : list (gmap string object)) (name : string)
  : result object :=
  match namespaces with
  | [] => Raise (NameError name)
  | ns :: rest =>
      match ns !! name with
      | Some v => Ok v
      | None => resolve_in rest name
      end
  end.

Definition _resolve_var (frame : FrameType) (name : string) : result object :=
  resolve_in [f_locals frame; f_globals frame; f_builtins frame] name.

(** [node.func.id] *)
Definition func_id (node : pnode) : result string :=
  match ast node with
  | Call _ (Name _ id) _ _ => Ok id
  | Call _ f _ _ =>
      Raise (AttributeError ("'" +:+ class_name f +:+ "' object has no attribute 'id'"))
  | a => Raise (AttributeError ("'" +:+ class_name a +:+ "' object has no attribute 'func'"))
  end.

(** The condition of [_plain_call_at]:
    [_resolve_var(frame, node.func.id) == val]. *)
Definition resolves_to (frame : FrameType) (val : object) (node : pnode)
  : result bool :=
  id ← func_id node;
  v ← _resolve_var frame id;
  Ok (py_eq v val).

Definition _plain_call_at (self : FileInfo) (frame : FrameType) (val : object)
  : result pnode :=
  calls ← _calls_in_stmt_at_line self (f_lineno frame);
  matching ← filterR (resolves_to frame val) calls;
  only matching.

(** ** The process state

    The module keeps two pieces of global state: the [lru_cache] behind
    [file_info] and the class attribute [Spell.excluded].  The state below
    adds what is needed to observe the module from outside: a counter that
    gives each new [FileInfo] its identity, the log of files read, and the
    log of runs of the wrapped functions. *)

Record FrameInfo : Type := { frame : FrameType; call : pnode }.

Global Instance code_eq_dec : EqDecision code.
Proof. solve_decision. Defined.

Global Instance code_countable : Countable code :=
  inj_countable'
    (fun c => (co_filename c, co_name c, co_firstlineno c))
    (fun t => Build_code t.1.1 t.1.2 t.2)
    (fun c => match c with Build_code _ _ _ => eq_refl end).

(** What the module needs from outside: [littleutils.file_to_string] on
    the file system of the run, and [ast.parse]. *)
Record runtime : Type := {
  file_to_string : string -> result string;
  ast_parse : string -> string -> result AST
}.

Record world : Type := {
  file_info_cache : list (string * FileInfo);  (* most recently used first *)
  next_id : nat;
  reads : list string;
  excluded : gset code;
  runs : list (nat * FrameInfo)
}.

Definition set_cache (cache : list (string * FileInfo)) (w : world) : world :=
  {| file_info_cache := cache; next_id := next_id w; reads := reads w;
     excluded := excluded w; runs := runs w |}.

Definition log_read (path : string) (w : world) : world :=
  {| file_info_cache := file_info_cache w; next_id := next_id w;
     reads := reads w ++ [path]; excluded := excluded w; runs := runs w |}.

Definition fresh_id (w : world) : world :=
  {| file_info_cache := file_info_cache w; next_id := S (next_id w);
     reads := reads w; excluded := excluded w; runs := runs w |}.

Definition add_excluded (c : code) (w : world) : world :=
  {| file_info_cache := file_info_cache w; next_id := next_id w;
     reads := reads w; excluded := {[c]} ∪ excluded w; runs := runs w |}.

Definition log_run (id : nat) (frame_info : FrameInfo) (w : world) : world :=
  {| file_info_cache := file_info_cache w; next_id := next_id w;
     reads := reads w; excluded := excluded w;
     runs := runs w ++ [(id, frame_info)] |}.

Definition initial_world : world :=
  {| file_info_cache := []; next_id := O; reads := []; excluded := ∅;
     runs := [] |}.

(** Computations that read and change the process state and may raise;
    the state reached when an exception is raised is kept. *)
Definition M (A : Type) : Type := world -> result A * world.

Global Instance M_ret : MRet M := fun A a w => (Ok a, w).
Global Instance M_bind : MBind M := fun A B k m w =>
  match m w with
  | (Ok a, w') => k a w'
  | (Raise e, w') => (Raise e, w')
  end.

Definition lift {A} (r : result A) : M A := fun w => (r, w).
Definition gets {A} (f : world -> A) : M A := fun w => (Ok (f w), w).
Definition modify (f : world -> world) : M unit := fun w => (Ok tt, f w).

(** ** The document cache: [file_info = lru_cache()(FileInfo)] *)

(** [functools.lru_cache()] is called without arguments: it keeps at most
    [maxsize=128] entries and drops the least recently used one. *)
Definition maxsize : nat := 128.

Definition cache_find (path : string) (cache : list (string * FileInfo))
  : option FileInfo :=
  snd <$> List.find (fun e => String.eqb (fst e) path) cache.

Definition cache_remove (path : string) (cache : list (string * FileInfo))
  : list (string * FileInfo) :=
  List.filter (fun e => negb (String.eqb (fst e) path)) cache.

(** [FileInfo(path)]: read, parse, index. *)
Definition FileInfo_new (rt : runtime) (path : string) : M FileInfo :=
  _ ← modify (log_read path);
  source ← lift (file_to_string rt path);
  tree ← lift (ast_parse rt source path);
  id ← gets next_id;
  _ ← modify fresh_id;
  mret (FileInfo_init id path source tree).

(** A hit returns the cached instance and makes it the most recent entry;
    a miss builds the instance, stores it, and drops the least recently
    used entry when the cache is full.  A call that raises stores
    nothing. *)
Definition file_info (rt : runtime) (path : string) : M FileInfo :=
  cache ← gets file_info_cache;
  match cache_find path cache with
  | Some fi =>
      _ ← modify (set_cache ((path, fi) :: cache_remove path cache));
      mret fi
  | None =>
      fi ← FileInfo_new rt path;
      _ ← modify (set_cache (take maxsize ((path, fi) :: cache)));
      mret fi
  end.

Definition FileInfo_for_frame (rt : runtime) (frame : FrameType) : M FileInfo :=
  file_info rt (co_filename (f_code frame)).

(** ** FrameInfo *)

Definition FrameInfo_stmt (self : FrameInfo) : result pnode :=
  stmt_containing_node (call self).

(** The values the [assigned_names] property evaluates to. *)
Inductive pyval : Type :=
| PyStr (s : string)
| PyTuple (items : list pyval)
| PyNode (node : pnode).

Definition str_tuple (names : list string) : pyval := PyTuple (PyStr <$> names).

(** [return nearest_assigned_names(self.call)], which is [names, node]. *)
Definition FrameInfo_assigned_names (self : FrameInfo) : result pyval :=
  '(names, node) ← nearest_assigned_names (call self);
  Ok (PyTuple [str_tuple names; PyNode node]).

Definition FrameInfo_file_info (rt : runtime) (self : FrameInfo) : M FileInfo :=
  FileInfo_for_frame rt (frame self).

(** ** Spell *)

Record Spell : Type := {
  spell_id : nat;                       (* identity of the instance *)
  func_name : string;                   (* self.func.__name__ *)
  func : FrameInfo -> list object -> result object
}.

(** The spell as a value bound in a namespace; [Spell] keeps
    [object.__eq__]. *)
Definition spell_object (self : Spell) : object :=
  {| ob_id := spell_id self; ob_eq := None |}.

(** The closure [wrapper] that [__getitem__] returns. *)
Record wrapper : Type := { w_spell : Spell; w_frame_info : FrameInfo }.

Definition Spell_getitem (self : Spell) (frame_info : FrameInfo) : wrapper :=
  {| w_spell := self; w_frame_info := frame_info |}.

(** A call of the wrapper: the one place where [self.func] runs. *)
Definition wrapper_call (wr : wrapper) (args : list object) : M object :=
  _ ← modify (log_run (spell_id (w_spell wr)) (w_frame_info wr));
  lift (func (w_spell wr) (w_frame_info wr) args).

(** [sys._getframe(1)] and the [f_back] chain behind it, for a call stack
    given innermost caller first. *)
Definition _getframe1 (stack : list FrameType)
  : result (FrameType * list FrameType) :=
  match stack with
  | frame :: back => Ok (frame, back)
  | [] => Raise (ValueError "call stack is not deep enough")
  end.

(** [while frame.f_code in self.excluded: frame = frame.f_back] *)
Fixpoint skip_excluded (excluded : gset code) (frame : FrameType)
    (back : list FrameType) : result FrameType :=
  if decide (f_code frame ∈ excluded) then
    match back with
    | frame' :: back' => skip_excluded excluded frame' back'
    | [] => Raise (AttributeError "'NoneType' object has no attribute 'f_code'")
    end
  else Ok frame.

(** What an attribute access evaluates to: the spell itself, or a wrapper
    bound to the call site. *)
Inductive attr_value : Type :=
| TheSpell (self : Spell)
| Bound (wr : wrapper).

Definition Spell_get (rt : runtime) (self : Spell) (stack : list FrameType)
  : M attr_value :=
  '(frame, back) ← lift (_getframe1 stack);
  excl ← gets excluded;
  frame ← lift (skip_excluded excl frame back);
  fi ← FileInfo_for_frame rt frame;
  call ← lift (_attr_call_at fi (f_lineno frame) (func_name self));
  match call with
  | None => mret (TheSpell self)
  | Some call =>
      mret (Bound (Spell_getitem self {| frame := frame; call := call |}))
  end.

Definition Spell_call (rt : runtime) (self : Spell) (stack : list FrameType)
    (args : list object) : M object :=
  '(frame, _) ← lift (_getframe1 stack);
  fi ← FileInfo_for_frame rt frame;
  call ← lift (_plain_call_at fi frame (spell_object self));
  wrapper_call (Spell_getitem self {| frame := frame; call := call |}) args.

(** [Spell.excluded.add(func.__code__)]; the function is returned as it is. *)
Definition no_spells (func_code : code) : M code :=
  _ ← modify (add_excluded func_code);
  mret func_code.

(** ** Notions used to state the properties *)

(** The total size of the subtrees waiting in the queue of a walk. *)
Definition queue_size (todo : list pnode) : nat :=
  sum_list_with (fun n => ast_size (ast n)) todo.

(** [descendant r n]: [n] is [r] or is reached from [r] through child
    links. *)
Inductive descendant (r : pnode) : pnode -> Prop :=
| desc_self : descendant r r
| desc_child p c : descendant r p -> c ∈ pchildren p -> descendant r c.

(** [below t n]: the position of [n] extends the position of [t]. *)
Definition below (t n : pnode) : Prop := ∃ l, pos n = l ++ pos t.

(** [independent todo]: no queued node lies at or below the position of
    another one. *)
Definition independent (todo : list pnode) : Prop :=
  forall i j t u, todo !! i = Some t -> todo !! j = Some u -> below t u -> i = j.

(** [node.lineno == line] *)
Definition on_line (line : Z) (node : pnode) : bool :=
  bool_decide (get_lineno (ast node) = Some line).

(** The parent chain of a node: the node, its parent, and so on up to the
    root. *)
Fixpoint chain (node : pnode) : list pnode :=
  match node with
  | PNode _ _ up =>
      node :: match up with
              | Some p => chain p
              | None => []
              end
  end.

(** Simple assignment, for-loop or comprehension clause. *)
Definition is_assignment_like (node : AST) : bool :=
  match node with
  | Assign _ _ _ | For _ _ _ _ _ | comprehension _ _ _ => true
  | _ => false
  end.

(** The node reached from [node] by following child indices downwards. *)
Fixpoint descend (node : pnode) (path : list nat) : option pnode :=
  match path with
  | [] => Some node
  | i :: path' => child ← pchildren node !! i; descend child path'
  end.

(** Loading a sequence of paths, one after the other. *)
Definition loads (rt : runtime) (paths : list string) (w : world) : world :=
  foldl (fun w path => (file_info rt path w).2) w paths.

(** How often a file was read. *)
Definition read_count (path : string) (w : world) : nat :=
  length (List.filter (String.eqb path) (reads w)).

(** ** Further notions *)

(** A node [node_name] gives a name for: a name or an attribute access. *)
Definition is_named (node : AST) : bool :=
  match node with
  | Name _ _ | Attribute _ _ _ => true
  | _ => false
  end.

(** A target [node_names] gives names for: a named node, or a tuple or
    list whose elements are all named nodes. *)
Definition names_extractable (target : AST) : bool :=
  match target with
  | Tuple _ elts | List _ elts => forallb is_named elts
  | _ => is_named target
  end.

(** The message of the [TypeError] of [node_name]. *)
Definition cannot_extract (node : AST) : exn :=
  TypeError ("Cannot extract name from <ast." +:+ class_name node
               +:+ " object>").

(** A statement or comprehension clause [nearest_assigned_names] gives
    names for: an assignment with one target, a for-loop or a
    comprehension clause, whose target [node_names] accepts. *)
Definition assignable (node : AST) : bool :=
  match node with
  | Assign _ [target] _ => names_extractable target
  | For _ target _ _ _ => names_extractable target
  | comprehension target _ _ => names_extractable target
  | _ => false
  end.

(** The message of the [AssertionError] of [only] for a collection of
    [n] elements. *)
Definition found (n : nat) : exn :=
  AssertionError ("Expected one value, found " +:+ pretty n).

(** The cache holds at most [maxsize] entries, one per path. *)
Definition cache_bounded (w : world) : Prop :=
  (length (file_info_cache w) <= maxsize)%nat
  ∧ NoDup (file_info_cache w).*1.

(** An entry of the cache is the document of its path: the index of the
    parse of the text of the file, made in this process. *)
Definition parsed_from (rt : runtime) (w : world) (e : string * FileInfo)
  : Prop :=
  ∃ src tree, file_to_string rt e.1 = Ok src
    ∧ ast_parse rt src e.1 = Ok tree
    ∧ e.2 = FileInfo_init (fi_id e.2) e.1 src tree
    ∧ (fi_id e.2 < next_id w)%nat.

(** Every entry of the cache is the document of its path, and no two
    entries are the same instance. *)
Definition cache_faithful (rt : runtime) (w : world) : Prop :=
  Forall (parsed_from rt w) (file_info_cache w)
  ∧ NoDup (fi_id <$> (file_info_cache w).*2).

(** ** wrap_module *)

(** A value of the namespace handed to [wrap_module]: an instance of
    [Spell], or anything else. *)
Inductive global_value : Type :=
| SpellValue (s : Spell)
| OtherValue (o : object).

(** An entry of [sys.modules]: a module, or a [ModuleWrapper] proxy
    around the entry it replaced, with the attributes set on its class. *)
Inductive module_value : Type :=
| PlainModule (id : nat)
| ModuleWrapper (class_attrs : gmap string Spell) (wrapped : module_value).

(** The process state together with [sys.modules]. *)
Record interpreter : Type := {
  process : world;
  sys_modules : gmap string module_value
}.

(** How [wrap_module] ends: normally, or with the [KeyError] of
    [sys.modules[module_name]]. *)
Inductive wrap_result : Type :=
| Wrapped
| KeyError (key : string).

(** The loop of [wrap_module]: the values that are spells, under their
    names. *)
Definition spells_of (globs : gmap string global_value) : gmap string Spell :=
  omap (fun value => match value with
                     | SpellValue s => Some s
                     | OtherValue _ => None
                     end) globs.

(** [wrap_module(module_name, globs)].  The class statement runs first
    and registers the code of [__getattribute__] (given here as
    [getattribute]); then the spells are set on the class; then the
    entry of [sys.modules] is read, wrapped and replaced. *)
Definition wrap_module (getattribute : code) (module_name : string)
    (globs : gmap string global_value) (st : interpreter)
  : wrap_result * interpreter :=
  let registered := (no_spells getattribute (process st)).2 in
  match sys_modules st !! module_name with
  | Some module =>
      (Wrapped,
       {| process := registered;
          sys_modules :=
            <[module_name := ModuleWrapper (spells_of globs) module]>
              (sys_modules st) |})
  | None =>
      (KeyError module_name,
       {| process := registered; sys_modules := sys_modules st |})
  end.

(** [ModuleWrapper.__getattribute__(self, item)] for an item set on the
    class: [object.__getattribute__] finds the spell on the class and,
    by the descriptor protocol, calls its [__get__], with the frame of
    [__getattribute__] on top of the caller's stack.  Other items are
    left to the proxy ([None] here). *)
Definition ModuleWrapper_getattribute (rt : runtime)
    (getattribute_frame : FrameType) (module : module_value) (item : string)
    (stack : list FrameType) : option (M attr_value) :=
  match module with
  | ModuleWrapper class_attrs _ =>
      spell ← class_attrs !! item;
      Some (Spell_get rt spell (getattribute_frame :: stack))
  | PlainModule _ => None
  end.

(** ** Sample documents *)

Module Samples.

(** [x = f()] *)
Definition simple_assign : AST :=
  ModuleNode [Assign 1 [Name 1 "x"] (Call 1 (Name 1 "f") [] [])].

(** [a, b = f()] *)
Definition tuple_assign : AST :=
  ModuleNode [Assign 1 [Tuple 1 [Name 1 "a"; Name 1 "b"]]
                       (Call 1 (Name 1 "f") [] [])].

(** [self.value = f()] *)
Definition attr_assign : AST :=
  ModuleNode [Assign 1 [Attribute 1 (Name 1 "self") "value"]
                       (Call 1 (Name 1 "f") [] [])].

(** [for k in f(): pass] *)
Definition for_header : AST :=
  ModuleNode [For 1 (Name 1 "k") (Call 1 (Name 1 "f") [] [])
                  [OtherStmt 1 []] []].

(** [a = b = f()] *)
Definition chained_assign : AST :=
  ModuleNode [Assign 1 [Name 1 "a"; Name 1 "b"] (Call 1 (Name 1 "f") [] [])].

(** The loop [for k in xs:] with the body [g(f())] on line 2. *)
Definition for_body : AST :=
  ModuleNode [For 1 (Name 1 "k") (Name 1 "xs")
                  [Expr 2 (Call 2 (Name 2 "g") [Call 2 (Name 2 "f") [] []] [])]
                  []].

(** [x = obj.f] *)
Definition attr_reference : AST :=
  ModuleNode [Assign 1 [Name 1 "x"] (Attribute 1 (Name 1 "obj") "f")].

(** [x = obj.f()] *)
Definition attr_call : AST :=
  ModuleNode [Assign 1 [Name 1 "x"]
                       (Call 1 (Attribute 1 (Name 1 "obj") "f") [] [])].

(** [x = a.f() + b.f()] *)
Definition attr_call_twice : AST :=
  ModuleNode [Assign 1 [Name 1 "x"]
                (OtherExpr 1 [Call 1 (Attribute 1 (Name 1 "a") "f") [] [];
                              Call 1 (Attribute 1 (Name 1 "b") "f") [] []])].


(** [x = t[0]() or g()] *)
Definition subscript_call : AST :=
  ModuleNode [Assign 1 [Name 1 "x"]
                (OtherExpr 1
                   [Call 1 (OtherExpr 1 [Name 1 "t"; OtherExpr 1 []]) [] [];
                    Call 1 (Name 1 "g") [] []])].

(** The document of a tree. *)
Definition document (tree : AST) : FileInfo :=
  FileInfo_init 0 "sample.py" "" tree.

(** The node of a tree at a path, or the root when the path leads
    nowhere. *)
Definition at_path (tree : AST) (path : list nat) : pnode :=
  default (root_node tree) (descend (root_node tree) path).

Definition module_code : code :=
  {| co_filename := "sample.py"; co_name := "<module>"; co_firstlineno := 1 |}.

Definition empty_frame (line : Z) : FrameType :=
  {| f_code := module_code; f_lineno := line;
     f_locals := ∅; f_globals := ∅; f_builtins := ∅ |}.

(** A spell named [f], with identity 1. *)
Definition the_spell : Spell :=
  {| spell_id := 1; func_name := "f";
     func := fun _ _ => Ok {| ob_id := 0; ob_eq := None |} |}.

(** An object of a class whose [__eq__] answers true to everything. *)
Definition equal_to_all : object :=
  {| ob_id := 2; ob_eq := Some (fun _ => true) |}.

Definition some_list : object := {| ob_id := 3; ob_eq := None |}.

(** A module-level frame at a line, with [f] bound to the spell, [g] to
    the object that equals everything and [t] to a list. *)
Definition module_frame (line : Z) : FrameType :=
  {| f_code := module_code; f_lineno := line;
     f_locals := ∅;
     f_globals := {[ "f" := spell_object the_spell;
                     "g" := equal_to_all;
                     "t" := some_list ]};
     f_builtins := ∅ |}.

(** The files of a sample run: path, text and syntax tree. *)
Definition newline : string := String (Ascii.ascii_of_nat 10) "".

Definition helper_source : string :=
  "def helper():" +:+ newline +:+ "    return f()".

(** [helper.py]: a function whose body, on line 2, calls the spell. *)
Definition helper_tree : AST :=
  ModuleNode [OtherStmt 1 [OtherNode [];
                           OtherStmt 2 [Call 2 (Name 2 "f") [] []]]].

(** [user.py], [x = helper()] *)
Definition user_tree : AST :=
  ModuleNode [Assign 1 [Name 1 "x"] (Call 1 (Name 1 "helper") [] [])].

Definition files : list (string * (string * AST)) :=
  [("helper.py", (helper_source, helper_tree));
   ("user.py", ("x = helper()", user_tree));
   ("access.py", ("x = obj.f()", attr_call));
   ("reference.py", ("x = obj.f", attr_reference))].

Definition sample_runtime : runtime :=
  {| file_to_string path :=
       match List.find (fun e => String.eqb e.1 path) files with
       | Some e => Ok e.2.1
       | None => Raise (IOError path)
       end;
     ast_parse text filename :=
       match List.find (fun e => String.eqb e.2.1 text) files with
       | Some e => Ok e.2.2
       | None => Raise (SyntaxError filename)
       end |}.

Definition code_at (file name : string) (line : Z) : code :=
  {| co_filename := file; co_name := name; co_firstlineno := line |}.

Definition frame_at (c : code) (line : Z) : FrameType :=
  {| f_code := c; f_lineno := line;
     f_locals := ∅;
     f_globals := {[ "f" := spell_object the_spell ]};
     f_builtins := ∅ |}.

Definition helper_code : code := code_at "helper.py" "helper" 1.
Definition helper_frame : FrameType := frame_at helper_code 2.
Definition user_frame : FrameType :=
  frame_at (code_at "user.py" "<module>" 1) 1.
Definition access_frame : FrameType :=
  frame_at (code_at "access.py" "<module>" 1) 1.
Definition reference_frame : FrameType :=
  frame_at (code_at "reference.py" "<module>" 1) 1.

(** The code of [ModuleWrapper.__getattribute__], which [wrap_module]
    registers, and a frame that runs it. *)
Definition getattribute_code : code :=
  code_at "sorcery/core.py" "__getattribute__" 186.
Definition getattribute_frame : FrameType := frame_at getattribute_code 187.



End Samples.

(** ** Further sample documents *)

Module MoreSamples.

(** [if c: x = f()] on one line. *)
Definition one_line_if : AST :=
  ModuleNode [OtherStmt 1 [Name 1 "c";
                           Assign 1 [Name 1 "x"] (Call 1 (Name 1 "f") [] [])]].

(** [x = list(map(f, xs))] *)
Definition mapped : AST :=
  ModuleNode [Assign 1 [Name 1 "x"]
                (Call 1 (Name 1 "list")
                   [Call 1 (Name 1 "map") [Name 1 "f"; Name 1 "xs"] []] [])].

(** [x = f(g(y) for g in gs)] *)
Definition generator_argument : AST :=
  ModuleNode [Assign 1 [Name 1 "x"]
                (Call 1 (Name 1 "f")
                   [OtherExpr 1 [Call 1 (Name 1 "g") [Name 1 "y"] [];
                                 comprehension (Name 1 "g") (Name 1 "gs") []]]
                   [])].

(** A module-level frame with [f] bound to the spell, and the built-ins
    [list] and [map]. *)
Definition frame_with_builtins (line : Z) : FrameType :=
  {| f_code := Samples.module_code; f_lineno := line;
     f_locals := ∅;
     f_globals := {[ "f" := spell_object Samples.the_spell;
                     "xs" := {| ob_id := 10; ob_eq := None |} ]};
     f_builtins := {[ "list" := {| ob_id := 11; ob_eq := None |};
                      "map" := {| ob_id := 12; ob_eq := None |} ]} |}.

(** The namespace of a module that defines the spell [f] and a number. *)
Definition namespace : gmap string global_value :=
  {[ "f" := SpellValue Samples.the_spell;
     "n" := OtherValue {| ob_id := 20; ob_eq := None |} ]}.

(** An interpreter in which the module [m] is imported. *)
Definition with_module : interpreter :=
  {| process := initial_world;
     sys_modules := {[ "m" := PlainModule 0 ]} |}.

End MoreSamples.
(** * Properties *)

(** ** The tree walk *)

Lemma ast_size_children a :
  ast_size a = S (sum_list_with ast_size (iter_child_nodes a)).
Proof.
  destruct a; simpl; rewrite ?sum_list_with_app; simpl; lia.
Qed.

Lemma pchildren_ast p : ast <$> pchildren p = iter_child_nodes (ast p).
Proof.
  unfold pchildren. generalize (iter_child_nodes (ast p)) as l.
  intros l. rewrite fmap_imap. simpl.
  rewrite <- (list_fmap_id l) at 2. by rewrite <- imap_const.
Qed.

Lemma queue_size_children p :
  ast_size (ast p) = S (queue_size (pchildren p)).
Proof.
  rewrite ast_size_children, <- pchildren_ast. f_equal.
  unfold queue_size. generalize (pchildren p) as l.
  induction l as [|c l IH]; [done|]. rewrite fmap_cons. simpl. by rewrite IH.
Qed.

Lemma ast_size_pos a : (0 < ast_size a)%nat.
Proof. rewrite ast_size_children. lia. Qed.

Lemma elem_of_pchildren p c :
  c ∈ pchildren p ↔
  ∃ i a, iter_child_nodes (ast p) !! i = Some a ∧ c = PNode (i :: pos p) a (Some p).
Proof.
  unfold pchildren. rewrite elem_of_lookup_imap.
  split; intros (i & a & ? & ?); by exists i, a.
Qed.

Lemma descendant_trans r p n :
  descendant r p -> descendant p n -> descendant r n.
Proof. intros Hr Hp. induction Hp; [done|]. by eapply desc_child. Qed.

Lemma descendant_inv r n :
  descendant r n -> n = r ∨ ∃ c, c ∈ pchildren r ∧ descendant c n.
Proof.
  induction 1 as [|p c Hp IH Hc]; [by left|]. right.
  destruct IH as [->|(c' & Hc' & Hd)].
  - exists c. split; [done|apply desc_self].
  - exists c'. split; [done|]. by eapply desc_child.
Qed.

Lemma descendant_step r c n :
  c ∈ pchildren r -> descendant c n -> descendant r n.
Proof.
  intros Hc Hd. eapply descendant_trans; [|done].
  eapply desc_child; [apply desc_self|done].
Qed.

Lemma walk_todo_spec fuel : forall todo,
  (queue_size todo <= fuel)%nat ->
  forall n, n ∈ walk_todo fuel todo ↔ ∃ t, t ∈ todo ∧ descendant t n.
Proof.
  induction fuel as [|fuel IH]; intros todo Hsz n.
  - destruct todo as [|t todo]; simpl.
    + split; [by intros ?%elem_of_nil|]. by intros (t & ?%elem_of_nil & _).
    + unfold queue_size in Hsz. simpl in Hsz.
      pose proof (ast_size_pos (ast t)). lia.
  - destruct todo as [|t todo]; simpl.
    + split; [by intros ?%elem_of_nil|]. by intros (t & ?%elem_of_nil & _).
    + assert (Hsz' : (queue_size (todo ++ pchildren t) <= fuel)%nat).
      { unfold queue_size in *. rewrite sum_list_with_app. simpl in Hsz.
        pose proof (queue_size_children t) as Ht. unfold queue_size in Ht. lia. }
      rewrite elem_of_cons, (IH _ Hsz'). split.
      * intros [->|(t' & Ht' & Hd)].
        -- exists t. split; [left|apply desc_self].
        -- apply elem_of_app in Ht' as [Ht'|Ht'].
           ++ exists t'. split; [by right|done].
           ++ exists t. split; [left|]. by eapply descendant_step.
      * intros (t' & Ht' & Hd). apply elem_of_cons in Ht' as [->|Ht'].
        -- apply descendant_inv in Hd as [->|(c & Hc & Hd)]; [by left|].
           right. exists c. split; [|done]. apply elem_of_app. by right.
        -- right. exists t'. split; [|done]. apply elem_of_app. by left.
Qed.

(** The walk visits exactly the nodes of the subtree. *)
Lemma elem_of_walk r n : n ∈ walk r ↔ descendant r n.
Proof.
  unfold walk. rewrite walk_todo_spec.
  - split; [|intros Hd; exists r; split; [left|done]].
    by intros (t & ->%list_elem_of_singleton & Hd).
  - unfold queue_size. simpl. lia.
Qed.

(** ** Node identity *)

(** Below [r], every position is the position of [r] extended by child
    indices. *)
Lemma descendant_pos r n : descendant r n -> ∃ l, pos n = l ++ pos r.
Proof.
  induction 1 as [|p c Hp [l Hl] Hc]; [by exists []|].
  apply elem_of_pchildren in Hc as (i & a & _ & ->). simpl.
  exists (i :: l). by rewrite Hl.
Qed.

Lemma descendant_pos_self r n : descendant r n -> pos n = pos r -> n = r.
Proof.
  intros Hd Hpos. destruct Hd as [|p c Hp Hc]; [done|].
  apply descendant_pos in Hp as [l Hl].
  apply elem_of_pchildren in Hc as (i & a & _ & ->). simpl in Hpos.
  rewrite Hl in Hpos. apply (f_equal length) in Hpos.
  simpl in Hpos. rewrite length_app in Hpos. lia.
Qed.

(** Two nodes of one tree at the same position are the same node. *)
Lemma descendant_pos_inj r a b :
  descendant r a -> descendant r b -> pos a = pos b -> a = b.
Proof.
  intros Ha. revert b. induction Ha as [|p c Hp IH Hc]; intros b Hb Hpos.
  - symmetry. by apply descendant_pos_self.
  - destruct Hb as [|q d Hq Hd].
    + by apply descendant_pos_self; [eapply desc_child|].
    + apply elem_of_pchildren in Hc as (i & x & Hx & ->).
      apply elem_of_pchildren in Hd as (j & y & Hy & ->).
      simpl in Hpos. injection Hpos as -> Hpq.
      apply IH in Hpq as <-; [|done]. congruence.
Qed.

Lemma node_is_true r a b :
  descendant r a -> descendant r b -> node_is a b = true ↔ a = b.
Proof.
  intros Ha Hb. unfold node_is. rewrite bool_decide_eq_true. split.
  - by apply (descendant_pos_inj r).
  - by intros ->.
Qed.

Lemma walk_todo_NoDup fuel : forall todo,
  (queue_size todo <= fuel)%nat ->
  independent todo -> NoDup (pos <$> walk_todo fuel todo).
Proof.
  induction fuel as [|fuel IH]; intros todo Hfuel Hind; simpl; [constructor|].
  destruct todo as [|t todo]; [constructor|]. rewrite fmap_cons.
  assert (Hsz : (queue_size (todo ++ pchildren t) <= fuel)%nat).
  { unfold queue_size in *. rewrite sum_list_with_app. simpl in Hfuel.
    pose proof (queue_size_children t) as Ht. unfold queue_size in Ht. lia. }
  assert (Hrest : independent (todo ++ pchildren t)).
  { intros i j a b Ha Hb [l Hl].
    apply lookup_app_Some in Ha as [Ha|[Hi Ha]];
      apply lookup_app_Some in Hb as [Hb|[Hj Hb]].
    - assert (S i = S j) by (by eapply (Hind (S i) (S j) a b); [| |exists l]).
      lia.
    - exfalso.
      apply list_elem_of_lookup_2, elem_of_pchildren in Hb as (k & x & _ & ->).
      simpl in Hl. destruct l as [|k' l]; simpl in Hl.
      + assert (O = S i); [|lia].
        eapply (Hind O (S i) t a); [done|done|]. exists [k]. by rewrite <- Hl.
      + injection Hl as _ Hl.
        assert (S i = O); [|lia].
        eapply (Hind (S i) O a t); [done|done|by exists l].
    - exfalso.
      apply list_elem_of_lookup_2, elem_of_pchildren in Ha as (k & x & _ & ->).
      simpl in Hl.
      assert (O = S j); [|lia].
      eapply (Hind O (S j) t b); [done|done|].
      exists (l ++ [k]). by rewrite <- app_assoc.
    - pose proof Ha as Ha'. pose proof Hb as Hb'.
      apply list_elem_of_lookup_2, elem_of_pchildren in Ha' as (k & x & _ & Hka).
      apply list_elem_of_lookup_2, elem_of_pchildren in Hb' as (k' & y & _ & Hkb).
      unfold pchildren in Ha, Hb.
      rewrite list_lookup_imap in Ha, Hb.
      destruct (iter_child_nodes (ast t) !! (i - length todo)%nat) eqn:Ei;
        [|done].
      destruct (iter_child_nodes (ast t) !! (j - length todo)%nat) eqn:Ej;
        [|done].
      simpl in Ha, Hb. injection Ha as <-. injection Hb as <-. simpl in Hl.
      assert (l = []) as ->.
      { apply (f_equal length) in Hl. simpl in Hl. rewrite length_app in Hl.
        simpl in Hl. destruct l; [done|simpl in Hl; lia]. }
      simpl in Hl. injection Hl as Hl. lia. }
  constructor; [|by apply IH].
  intros Hin. apply list_elem_of_fmap in Hin as (n & Hpos & Hn).
  apply (walk_todo_spec _ _ Hsz) in Hn as (u & Hu & Hd).
  apply descendant_pos in Hd as [l Hl]. rewrite <- Hpos in Hl.
  apply list_elem_of_lookup in Hu as [i Hi].
  apply lookup_app_Some in Hi as [Hi|[_ Hi]].
  - assert (S i = O); [|lia].
    eapply (Hind (S i) O u t); [done|done|by exists l].
  - apply list_elem_of_lookup_2, elem_of_pchildren in Hi as (k & x & _ & ->).
    simpl in Hl. apply (f_equal length) in Hl. rewrite length_app in Hl.
    simpl in Hl. lia.
Qed.

(** The walk yields each node once. *)
Lemma walk_NoDup r : NoDup (walk r).
Proof.
  apply (NoDup_fmap_1 pos). unfold walk. apply walk_todo_NoDup.
  - unfold queue_size. simpl. lia.
  - intros [|i] [|j] t u Ht Hu _; simplify_eq/=; done.
Qed.

(** ** The line index *)

Lemma foldl_index_node nodes : forall (m : gmap Z (list pnode)) line,
  default [] (foldl index_node m nodes !! line) =
  default [] (m !! line) ++ List.filter (on_line line) nodes.
Proof.
  induction nodes as [|n nodes IH]; intros m line; simpl.
  - by rewrite app_nil_r.
  - rewrite IH. unfold index_node, on_line.
    destruct (get_lineno (ast n)) as [l|] eqn:El.
    + destruct (decide (l = line)) as [->|Hne].
      * rewrite lookup_insert_eq, bool_decide_eq_true_2 by done.
        simpl. by rewrite <- app_assoc.
      * rewrite lookup_insert_ne, bool_decide_eq_false_2 by congruence. done.
    + by rewrite bool_decide_eq_false_2.
Qed.

(** The index of a document is exhaustive: a line holds, in walk order,
    every node of the tree that carries this line number. *)
Lemma line_nodes_init id path src tree line :
  line_nodes (FileInfo_init id path src tree) line =
  List.filter (on_line line) (walk (root_node tree)).
Proof.
  unfold line_nodes, FileInfo_init. simpl. by rewrite foldl_index_node.
Qed.

Lemma elem_of_line_nodes id path src tree line n :
  n ∈ line_nodes (FileInfo_init id path src tree) line ↔
  descendant (root_node tree) n ∧ get_lineno (ast n) = Some line.
Proof.
  rewrite line_nodes_init, list_elem_of_In, filter_In, <- list_elem_of_In.
  rewrite elem_of_walk. unfold on_line. by rewrite bool_decide_eq_true.
Qed.

Lemma NoDup_filter_bool {A} (f : A -> bool) (l : list A) :
  NoDup l -> NoDup (List.filter f l).
Proof.
  induction 1 as [|x l Hx Hl IH]; simpl; [constructor|].
  destruct (f x); [|done]. constructor; [|done].
  rewrite list_elem_of_In, filter_In, <- list_elem_of_In. tauto.
Qed.

Lemma line_nodes_NoDup id path src tree line :
  NoDup (line_nodes (FileInfo_init id path src tree) line).
Proof. rewrite line_nodes_init. apply NoDup_filter_bool, walk_NoDup. Qed.


(** ** Enclosing statements *)

Lemma pnode_up_ind (P : pnode -> Prop) :
  (forall ps a, P (PNode ps a None)) ->
  (forall ps a p, P p -> P (PNode ps a (Some p))) ->
  forall node, P node.
Proof.
  intros Hroot Hup. fix IH 1. intros [ps a [p|]]; [apply Hup, IH|apply Hroot].
Qed.

(** The loop stops at the first node of the parent chain that satisfies
    the condition. *)
Lemma ascend_until_Ok stop node s :
  ascend_until stop node = Ok s ↔
  ∃ pre post, chain node = pre ++ s :: post ∧
              Forall (fun n => stop (ast n) = false) pre ∧ stop (ast s) = true.
Proof.
  revert s. induction node as [ps a|ps a p IH] using pnode_up_ind; intros s.
  - simpl. destruct (stop a) eqn:Ea; split.
    + intros [= <-]. by exists [], [].
    + intros (pre & post & Hc & Hpre & Hs).
      destruct pre as [|x pre]; simplify_eq/=; [done|].
      apply Forall_cons_1 in Hpre as [Hx _]. simpl in Hx. congruence.
    + done.
    + intros (pre & post & Hc & Hpre & Hs).
      destruct pre as [|x pre]; simplify_eq/=; [congruence|].
      by destruct pre.
  - simpl. destruct (stop a) eqn:Ea; split.
    + intros [= <-]. by exists [], (chain p).
    + intros (pre & post & Hc & Hpre & Hs).
      destruct pre as [|x pre]; simplify_eq/=; [done|].
      apply Forall_cons_1 in Hpre as [Hx _]. simpl in Hx. congruence.
    + intros (pre & post & Hc & Hpre & Hs)%IH.
      exists (PNode ps a (Some p) :: pre), post. simpl. rewrite Hc.
      split; [done|]. split; [|done]. by constructor.
    + intros (pre & post & Hc & Hpre & Hs).
      destruct pre as [|x pre]; simplify_eq/=; [congruence|].
      apply IH. exists pre, post. apply Forall_cons_1 in Hpre as [_ Hpre].
      done.
Qed.

Lemma ascend_until_Raise stop node e :
  ascend_until stop node = Raise e ->
  Forall (fun n => stop (ast n) = false) (chain node) ∧
  ∃ r, last (chain node) = Some r ∧ e = no_parent (ast r).
Proof.
  induction node as [ps a|ps a p IH] using pnode_up_ind; simpl;
    destruct (stop a) eqn:Ea; try done.
  - intros [= <-]. split; [by repeat constructor|]. by eexists.
  - intros [Hall (r & Hr & ->)]%IH. split; [by constructor|].
    exists r. split; [|done]. destruct p; simpl in *. done.
Qed.

(** In a tree whose root has no parent, the statement found from a node
    of the tree is a node of the tree, and the node lies in its subtree. *)
Lemma ascend_until_descendant stop r n s :
  parent r = None -> descendant r n -> ascend_until stop n = Ok s ->
  descendant r s ∧ descendant s n.
Proof.
  intros Hr Hd. revert s. induction Hd as [|p c Hp IH Hc]; intros s Hs.
  - destruct r as [ps a up]. simpl in Hr. subst up. simpl in Hs.
    destruct (stop a); [|done]. injection Hs as <-. split; apply desc_self.
  - pose proof Hc as Hc'.
    apply elem_of_pchildren in Hc as (i & a & Ha & ->). simpl in Hs.
    destruct (stop a).
    + injection Hs as <-. split; [by eapply desc_child|apply desc_self].
    + apply IH in Hs as [Hrs Hsp]. split; [done|]. by eapply desc_child.
Qed.

(** ** Results *)

Lemma bind_Ok {A B} (r : result A) (k : A -> result B) b :
  r ≫= k = Ok b ↔ ∃ a, r = Ok a ∧ k a = Ok b.
Proof.
  destruct r as [a|e]; simpl; split.
  - intros H. by exists a.
  - by intros (a' & [= <-] & H).
  - done.
  - by intros (a' & [=] & _).
Qed.

Lemma bind_Raise {A B} (r : result A) (k : A -> result B) e :
  r ≫= k = Raise e ↔ r = Raise e ∨ ∃ a, r = Ok a ∧ k a = Raise e.
Proof.
  destruct r as [a|e']; simpl; split.
  - intros H. right. by exists a.
  - by intros [[=]|(a' & [= <-] & H)].
  - intros [= <-]. by left.
  - by intros [[= <-]|(a' & [=] & _)].
Qed.

Lemma only_Ok {A} (l : list A) x : only l = Ok x ↔ l = [x].
Proof.
  destruct l as [|y [|z l]]; simpl; split; try done; by intros [= <-].
Qed.

Lemma only_Raise {A} (l : list A) e :
  only l = Raise e ↔
  length l ≠ 1%nat ∧
  e = AssertionError ("Expected one value, found " +:+ pretty (length l)).
Proof.
  destruct l as [|y [|z l]]; simpl; split; try done.
  - by intros [= <-].
  - by intros [_ ->].
  - by intros [? _].
  - by intros [= <-].
  - by intros [_ ->].
Qed.

(** ** Name resolution *)

(** C7: the lookup goes through the local, the global and the built-in
    bindings of the frame in this order and returns the first binding
    found; it raises [NameError] exactly when the name is bound in none
    of the three.  The lookup is a function of the frame and the name:
    it reads the three namespaces and changes nothing. *)
Theorem resolve_var_layers (frame : FrameType) (name : string) :
  (forall v, _resolve_var frame name = Ok v ↔
     f_locals frame !! name = Some v
     ∨ (f_locals frame !! name = None ∧ f_globals frame !! name = Some v)
     ∨ (f_locals frame !! name = None ∧ f_globals frame !! name = None
        ∧ f_builtins frame !! name = Some v))
  ∧ (forall e, _resolve_var frame name = Raise e ↔
       e = NameError name
       ∧ f_locals frame !! name = None ∧ f_globals frame !! name = None
       ∧ f_builtins frame !! name = None).
Proof.
  unfold _resolve_var. simpl.
  destruct (f_locals frame !! name) as [vl|];
    [|destruct (f_globals frame !! name) as [vg|];
      [|destruct (f_builtins frame !! name) as [vb|]]].
  all: split; [intros v|intros e]; split; intros H; simplify_eq/=.
  all: try (destruct H as [H|[H|H]]); try (destruct H as (? & ? & ? & ?)).
  all: try (destruct_and?; simplify_eq/=); auto 6.
Qed.

(** ** Attribute-style resolution *)

(** C1: in a document, the candidates for (line, name) are the nodes of
    the tree on that line that are calls through an attribute named
    [name], each counted once.  With no candidate the resolver returns
    [None]; with one it returns that call; with two or more it raises
    the [ValueError] that carries their number and the name. *)
Theorem attr_call_at_spec id path src tree (line : Z) (name : string) :
  let self := FileInfo_init id path src tree in
  let options := List.filter (is_attr_call name) (line_nodes self line) in
  NoDup options
  ∧ (forall n, n ∈ options ↔
       descendant (root_node tree) n ∧ get_lineno (ast n) = Some line
       ∧ is_attr_call name n = true)
  ∧ (options = [] -> _attr_call_at self line name = Ok None)
  ∧ (forall call, options = [call] ->
       _attr_call_at self line name = Ok (Some call))
  ∧ ((2 <= length options)%nat ->
       _attr_call_at self line name =
       Raise (ValueError ("Found " +:+ pretty (length options)
                            +:+ " possible calls to " +:+ name))).
Proof.
  intros self options. split; [|split; [|split; [|split]]].
  - apply NoDup_filter_bool, line_nodes_NoDup.
  - intros n. unfold options.
    rewrite list_elem_of_In, filter_In, <- list_elem_of_In.
    unfold self. rewrite elem_of_line_nodes. tauto.
  - intros H. unfold _attr_call_at. fold self. fold options. by rewrite H.
  - intros call H. unfold _attr_call_at. fold self. fold options. by rewrite H.
  - intros H. unfold _attr_call_at. fold self. fold options.
    destruct options as [|a [|b l]]; simpl in H; [lia|lia|done].
Qed.

(** ** Assigned names *)

Lemma nearest_assigned_names_unfold c node :
  stmt_or_comprehension c = Ok node ->
  nearest_assigned_names c =
  (target ← assignment_target (ast node);
   names ← node_names target; Ok (names, node)).
Proof. intros H. unfold nearest_assigned_names. by rewrite H. Qed.

Lemma mapR_node_name_names elts names :
  Forall2 (fun e x => ∃ l, e = Name l x) elts names ->
  mapR node_name elts = Ok names.
Proof.
  induction 1 as [|e x elts names [l ->] _ IH]; simpl; [done|].
  by rewrite IH.
Qed.

(** C4: the property evaluates to the pair of the names and the node they
    are assigned at.  The names are the target's names in source order:
    the name of a simple target, the names of the elements of a tuple
    target from left to right, the trailing attribute of an attribute
    target, the loop variable of a for-loop. *)
Theorem assigned_names_targets (fr : FrameType) (c node : pnode) :
  stmt_or_comprehension c = Ok node ->
  let assigned := FrameInfo_assigned_names {| frame := fr; call := c |} in
  let pair_of names := Ok (PyTuple [str_tuple names; PyNode node]) in
  (forall l l' x v,
     ast node = Assign l [Name l' x] v -> assigned = pair_of [x])
  ∧ (forall l l' elts names v,
       ast node = Assign l [Tuple l' elts] v ->
       Forall2 (fun e x => ∃ le, e = Name le x) elts names ->
       assigned = pair_of names)
  ∧ (forall l l' receiver attr v,
       ast node = Assign l [Attribute l' receiver attr] v ->
       assigned = pair_of [attr])
  ∧ (forall l l' k iter body orelse,
       ast node = For l (Name l' k) iter body orelse ->
       assigned = pair_of [k]).
Proof.
  intros Hnode assigned pair_of. unfold assigned, FrameInfo_assigned_names.
  simpl. rewrite (nearest_assigned_names_unfold _ _ Hnode).
  repeat split.
  - intros l l' x v ->. done.
  - intros l l' elts names v -> Hnames. simpl.
    by rewrite (mapR_node_name_names _ _ Hnames).
  - intros l l' receiver attr v ->. done.
  - intros l l' k iter body orelse ->. done.
Qed.

(** C5: the ascent stops at the nearest enclosing statement or
    comprehension clause.  The names are those of its target when it is
    an assignment, a for-loop or a comprehension clause, and the
    derivation raises the [TypeError] for a missing assignment exactly
    when that nearest node is of another kind; the ancestors above it
    are not looked at. *)
Theorem nearest_assigned_names_nearest (c : pnode) :
  (forall node, stmt_or_comprehension c = Ok node ↔
     ∃ pre post, chain c = pre ++ node :: post
       ∧ Forall (fun n => is_stmt (ast n) || is_comprehension (ast n) = false) pre
       ∧ is_stmt (ast node) || is_comprehension (ast node) = true)
  ∧ (forall node, stmt_or_comprehension c = Ok node ->
       is_assignment_like (ast node) = true ->
       nearest_assigned_names c =
       (target ← assignment_target (ast node);
        names ← node_names target; Ok (names, node)))
  ∧ (nearest_assigned_names c = Raise (TypeError "No assignment found") ↔
       ∃ node, stmt_or_comprehension c = Ok node
               ∧ is_assignment_like (ast node) = false).
Proof.
  split; [|split].
  - intros node. apply ascend_until_Ok.
  - intros node Hnode _. by apply nearest_assigned_names_unfold.
  - split.
    + unfold nearest_assigned_names.
      intros [Hr|(node & Hnode & Hrest)]%bind_Raise.
      { apply ascend_until_Raise in Hr as (_ & r & _ & [=]). }
      exists node. split; [done|].
      apply bind_Raise in Hrest as [Hr|(target & Ht & Hrest)].
      * destruct (ast node); simpl in *; try done.
        by apply only_Raise in Hr as [_ [=]].
      * apply bind_Raise in Hrest as [Hr|(names & _ & [=])].
        assert (Hname : forall a, node_name a ≠ Raise (TypeError "No assignment found")).
        { intros a. by destruct a. }
        unfold node_names in Hr.
        assert (Hmap : forall l, mapR node_name l ≠ Raise (TypeError "No assignment found")).
        { induction l as [|a l IH]; [done|]. simpl.
          intros [H|(x & _ & [H|(xs & _ & [=])]%bind_Raise)]%bind_Raise.
          - by apply Hname in H.
          - by apply IH in H. }
        destruct target; try (by apply Hmap in Hr);
          apply bind_Raise in Hr as [Hr|(x & _ & [=])]; by apply Hname in Hr.
    + intros (node & Hnode & Hkind).
      rewrite (nearest_assigned_names_unfold _ _ Hnode).
      by destruct (ast node).
Qed.

(** C10: at an assignment with several targets the derivation raises the
    [AssertionError] of [only]; an assignment yields names only when it
    has exactly one target. *)
Theorem chained_assignment_raises (c node : pnode) l targets v :
  stmt_or_comprehension c = Ok node ->
  ast node = Assign l targets v ->
  ((2 <= length targets)%nat ->
     nearest_assigned_names c =
     Raise (AssertionError ("Expected one value, found "
                              +:+ pretty (length targets))))
  ∧ (forall names n, nearest_assigned_names c = Ok (names, n) ->
       ∃ target, targets = [target] ∧ node_names target = Ok names ∧ n = node).
Proof.
  intros Hnode Hast. rewrite (nearest_assigned_names_unfold _ _ Hnode), Hast.
  simpl. split.
  - intros Hlen. destruct targets as [|a [|b targets]]; simpl in Hlen; [lia..|].
    done.
  - intros names n (target & ->%only_Ok & (ns & Hns & [= <- <-])%bind_Ok)%bind_Ok.
    by exists target.
Qed.

(** ** Comprehensions that may raise *)

Lemma mapR_Ok {A B} (f : A -> result B) l ys :
  mapR f l = Ok ys ↔ Forall2 (fun x y => f x = Ok y) l ys.
Proof.
  revert ys. induction l as [|x l IH]; intros ys; simpl.
  - split; [intros [= <-]; constructor|by inversion 1].
  - rewrite bind_Ok. split.
    + intros (y & Hy & (ys' & Hys & [= <-])%bind_Ok).
      constructor; [done|by apply IH].
    + inversion 1 as [|? y ? ys' Hy Hys]; subst.
      exists y. split; [done|]. apply bind_Ok. exists ys'.
      split; [by apply IH|done].
Qed.

Lemma filterR_Ok {A} (c : A -> result bool) l xs :
  filterR c l = Ok xs ->
  (forall x, x ∈ l -> ∃ b, c x = Ok b)
  ∧ (forall x, x ∈ xs ↔ x ∈ l ∧ c x = Ok true)
  ∧ (NoDup l -> NoDup xs).
Proof.
  revert xs. induction l as [|x l IH]; intros xs; simpl.
  - intros [= <-]. split; [by intros x ?%elem_of_nil|].
    split; [|done]. intros x. split; [by intros ?%elem_of_nil|].
    by intros [?%elem_of_nil _].
  - intros (b & Hb & (xs' & Hxs & [= <-])%bind_Ok)%bind_Ok.
    destruct (IH _ Hxs) as (Hall & Hin & Hnd). split; [|split].
    + intros y [->|Hy]%elem_of_cons; [by exists b|by apply Hall].
    + intros y. destruct b.
      * rewrite !elem_of_cons, Hin. split.
        -- intros [->|[? ?]]; [by split; [left|]|by split; [right|]].
        -- intros [[->|?] ?]; [by left|by right].
      * rewrite elem_of_cons, Hin. split.
        -- intros [? ?]. by split; [right|].
        -- intros [[->|?] ?]; [congruence|done].
    + intros [Hx Hl]%NoDup_cons. destruct b; [|by apply Hnd].
      constructor; [|by apply Hnd]. rewrite Hin. tauto.
Qed.

Lemma filterR_total {A} (c : A -> result bool) l :
  (forall x, x ∈ l -> ∃ b, c x = Ok b) -> ∃ xs, filterR c l = Ok xs.
Proof.
  induction l as [|x l IH]; intros Hall; simpl; [by eexists|].
  destruct (Hall x) as [b Hb]; [left|]. rewrite Hb. simpl.
  destruct IH as [xs Hxs]; [intros y Hy; apply Hall; by right|].
  rewrite Hxs. simpl. by eexists.
Qed.

Lemma NoDup_singleton_iff {A} (l : list A) c :
  NoDup l -> (forall x, x ∈ l ↔ x = c) -> l = [c].
Proof.
  intros Hnd Hin. destruct l as [|x l].
  - pose proof (proj2 (Hin c) eq_refl) as H. by apply elem_of_nil in H.
  - assert (x = c) as -> by (apply Hin; left).
    destruct l as [|y l]; [done|].
    assert (y = c) as -> by (apply Hin; right; left).
    apply NoDup_cons in Hnd as [Hx _]. destruct Hx. left.
Qed.

Lemma two_elements_length {A} (l : list A) x y :
  x ∈ l -> y ∈ l -> x ≠ y -> (2 <= length l)%nat.
Proof.
  intros Hx Hy Hne. destruct l as [|a [|b l]]; simpl; [|..|lia].
  - by apply elem_of_nil in Hx.
  - apply list_elem_of_singleton in Hx, Hy. congruence.
Qed.

(** ** The statement of a line *)

Lemma node_set_elem nodes x :
  x ∈ node_set nodes -> x ∈ nodes.
Proof.
  induction nodes as [|n nodes IH]; simpl; [done|].
  destruct (existsb (node_is n) nodes).
  - intros ?%IH. by right.
  - intros [->|?%IH]%elem_of_cons; [left|by right].
Qed.

Lemma node_set_cover nodes x :
  x ∈ nodes -> ∃ y, y ∈ node_set nodes ∧ pos x = pos y.
Proof.
  revert x. induction nodes as [|n nodes IH]; intros x; simpl;
    [by intros ?%elem_of_nil|].
  intros [->|Hx]%elem_of_cons.
  - destruct (existsb (node_is n) nodes) eqn:E.
    + apply existsb_exists in E as (y & Hy%list_elem_of_In & Hny).
      unfold node_is in Hny. apply bool_decide_eq_true in Hny.
      destruct (IH _ Hy) as (z & Hz & Hyz). exists z. split; [done|congruence].
    + exists n. split; [left|done].
  - destruct (IH _ Hx) as (y & Hy & Hxy).
    destruct (existsb (node_is n) nodes); exists y; (split; [|done]);
      [done|by right].
Qed.

Lemma node_set_same nodes s :
  nodes ≠ [] -> Forall (fun n => n = s) nodes -> node_set nodes = [s].
Proof.
  induction nodes as [|n nodes IH]; [done|]. intros _ Hall.
  apply Forall_cons_1 in Hall as [-> Hall]. simpl.
  destruct nodes as [|m nodes]; [done|].
  assert (existsb (node_is s) (m :: nodes) = true) as ->.
  { apply Forall_cons_1 in Hall as [-> _]. simpl.
    unfold node_is at 1. by rewrite bool_decide_eq_true_2. }
  by apply IH.
Qed.

(** ** Bare-name resolution *)

Lemma mapR_same {A B} (f : A -> result B) l y :
  (forall x, x ∈ l -> f x = Ok y) -> mapR f l = Ok (replicate (length l) y).
Proof.
  induction l as [|x l IH]; intros Hall; simpl; [done|].
  rewrite (Hall x) by left. simpl. rewrite IH; [done|].
  intros z Hz. apply Hall. by right.
Qed.

(** The calls considered at a line of a document: the line holds nodes,
    they all lie in one statement, and the calls are the bare-name calls
    of that statement's subtree. *)
Lemma calls_in_stmt_at_line_Ok id path src tree line calls :
  let self := FileInfo_init id path src tree in
  _calls_in_stmt_at_line self line = Ok calls ↔
  ∃ stmt, line_nodes self line ≠ []
    ∧ (forall n, n ∈ line_nodes self line -> stmt_containing_node n = Ok stmt)
    ∧ calls = List.filter is_plain_call (walk stmt).
Proof.
  intros self. unfold _calls_in_stmt_at_line. rewrite bind_Ok. split.
  - intros (stmts & Hstmts%mapR_Ok & (stmt & Hstmt%only_Ok & [= <-])%bind_Ok).
    exists stmt.
    assert (Hroot : forall n s, n ∈ line_nodes self line ->
              stmt_containing_node n = Ok s ->
              descendant (root_node tree) s).
    { intros n s [Hn _]%elem_of_line_nodes Hs.
      by apply (ascend_until_descendant _ (root_node tree)) in Hs as [? _]. }
    assert (Hin : stmt ∈ stmts).
    { apply node_set_elem. rewrite Hstmt. left. }
    assert (Hdstmt : descendant (root_node tree) stmt).
    { apply list_elem_of_lookup in Hin as [i Hi].
      destruct (Forall2_lookup_r _ _ _ _ _ Hstmts Hi) as (n & Hn & Hs).
      eapply Hroot; [|done]. by eapply list_elem_of_lookup_2. }
    split; [|split; [|done]].
    + intros Hnil. rewrite Hnil in Hstmts. inversion Hstmts; subst.
      by apply elem_of_nil in Hin.
    + intros n Hn. pose proof Hn as Hn'.
      apply list_elem_of_lookup in Hn as [i Hi].
      destruct (Forall2_lookup_l _ _ _ _ _ Hstmts Hi) as (s & Hs & Hns).
      rewrite Hns. f_equal.
      destruct (node_set_cover stmts s) as (y & Hy & Hpos);
        [by eapply list_elem_of_lookup_2|].
      rewrite Hstmt in Hy. apply list_elem_of_singleton in Hy as ->.
      apply (descendant_pos_inj (root_node tree)); [|done|done].
      by eapply Hroot.
  - intros (stmt & Hne & Hall & ->).
    exists (replicate (length (line_nodes self line)) stmt). split.
    + by apply mapR_same.
    + rewrite (node_set_same _ stmt); [done| |].
      * destruct (line_nodes self line); [done|]. done.
      * apply Forall_forall. by intros n ?%elem_of_replicate_inv.
Qed.

(** The resolver returns a call exactly when the line lies in one
    statement, every bare-name callee of that statement resolves in the
    frame, and the returned call is the one bare-name call of the
    statement whose callee resolves to a value equal to [val]. *)
Lemma plain_call_at_Ok id path src tree frame val call :
  let self := FileInfo_init id path src tree in
  _plain_call_at self frame val = Ok call ↔
  ∃ stmt, line_nodes self (f_lineno frame) ≠ []
    ∧ (forall n, n ∈ line_nodes self (f_lineno frame) ->
         stmt_containing_node n = Ok stmt)
    ∧ (forall n, descendant stmt n -> is_plain_call n = true ->
         ∃ b, resolves_to frame val n = Ok b)
    ∧ (forall n, descendant stmt n ∧ is_plain_call n = true
                 ∧ resolves_to frame val n = Ok true ↔ n = call).
Proof.
  intros self. unfold _plain_call_at. rewrite bind_Ok.
  assert (Hcalls : forall stmt n,
            n ∈ List.filter is_plain_call (walk stmt) ↔
            descendant stmt n ∧ is_plain_call n = true).
  { intros stmt n.
    by rewrite list_elem_of_In, filter_In, <- list_elem_of_In, elem_of_walk. }
  split.
  - intros (calls & (stmt & Hne & Hall & ->)%calls_in_stmt_at_line_Ok
            & (matching & Hm & ->%only_Ok)%bind_Ok).
    apply filterR_Ok in Hm as (Hres & Hin & _).
    exists stmt. split; [done|]. split; [done|]. split.
    + intros n Hd Hp. apply Hres, Hcalls. done.
    + intros n. rewrite <- (list_elem_of_singleton n call), Hin, Hcalls. tauto.
  - intros (stmt & Hne & Hall & Hres & Hone).
    exists (List.filter is_plain_call (walk stmt)). split.
    { apply calls_in_stmt_at_line_Ok. by exists stmt. }
    destruct (filterR_total (resolves_to frame val)
                (List.filter is_plain_call (walk stmt))) as [matching Hm].
    { intros n [Hd Hp]%Hcalls. by apply Hres. }
    rewrite Hm. simpl. apply only_Ok.
    apply filterR_Ok in Hm as (_ & Hin & Hnd).
    apply NoDup_singleton_iff.
    + apply Hnd, NoDup_filter_bool, walk_NoDup.
    + intros n. rewrite Hin, Hcalls, <- Hone. tauto.
Qed.

Lemma resolves_to_true frame val n :
  resolves_to frame val n = Ok true ↔
  ∃ id v, func_id n = Ok id ∧ _resolve_var frame id = Ok v ∧ py_eq v val = true.
Proof.
  unfold resolves_to. rewrite bind_Ok. split.
  - intros (id & Hid & (v & Hv & [= Heq])%bind_Ok). by exists id, v.
  - intros (id & v & Hid & Hv & Heq). exists id. split; [done|].
    apply bind_Ok. exists v. split; [done|]. by rewrite Heq.
Qed.

(** C2: in a document, the resolver returns [call] exactly when the nodes
    of the triggering line lie in one statement, every bare-name callee
    in that statement resolves in the caller's frame, and [call] is the
    one bare-name call of the statement whose callee resolves to a value
    that compares equal ([==]) to the expected callable.  For a resolved
    value whose class keeps the default equality this is identity. *)
Theorem plain_call_at_spec id path src tree frame val call :
  let self := FileInfo_init id path src tree in
  (_plain_call_at self frame val = Ok call ↔
   ∃ stmt, line_nodes self (f_lineno frame) ≠ []
     ∧ (forall n, n ∈ line_nodes self (f_lineno frame) ->
          stmt_containing_node n = Ok stmt)
     ∧ (forall n, descendant stmt n -> is_plain_call n = true ->
          ∃ id v, func_id n = Ok id ∧ _resolve_var frame id = Ok v)
     ∧ (forall n,
          (descendant stmt n ∧ is_plain_call n = true
           ∧ ∃ id v, func_id n = Ok id ∧ _resolve_var frame id = Ok v
                     ∧ py_eq v val = true)
          ↔ n = call))
  ∧ (forall v, ob_eq v = None -> py_eq v val = py_is v val).
Proof.
  intros self. split; [|by intros v; unfold py_eq; intros ->].
  unfold self. rewrite plain_call_at_Ok. fold self.
  split; intros (stmt & Hne & Hall & Hres & Hone); exists stmt;
    (split; [done|]); (split; [done|]); split.
  - intros n Hd Hp. destruct (Hres n Hd Hp) as [b Hb].
    unfold resolves_to in Hb.
    apply bind_Ok in Hb as (i & Hi & (v & Hv & _)%bind_Ok). by exists i, v.
  - intros n. rewrite <- Hone, resolves_to_true. tauto.
  - intros n Hd Hp. destruct (Hres n Hd Hp) as (i & v & Hi & Hv).
    exists (py_eq v val). unfold resolves_to. rewrite Hi. simpl.
    by rewrite Hv.
  - intros n. rewrite <- Hone, resolves_to_true. tauto.
Qed.


(** ** The document cache *)

Lemma cache_find_cons path q fi cache :
  cache_find path ((q, fi) :: cache) =
  if String.eqb q path then Some fi else cache_find path cache.
Proof. unfold cache_find. simpl. by destruct (String.eqb q path). Qed.

Lemma cache_find_take_mono path cache fi n m :
  cache_find path (take n cache) = Some fi -> (n <= m)%nat ->
  cache_find path (take m cache) = Some fi.
Proof.
  revert n m. induction cache as [|[q fi'] cache IH]; intros n m Hn Hle.
  - by rewrite take_nil in Hn.
  - destruct n as [|n]; [done|]. destruct m as [|m]; [lia|].
    simpl in *. rewrite cache_find_cons in *.
    destruct (String.eqb q path); [done|]. apply (IH n); [done|lia].
Qed.

Lemma cache_find_take_all path cache fi n :
  cache_find path (take n cache) = Some fi -> cache_find path cache = Some fi.
Proof.
  intros H. rewrite <- (take_ge cache (n + length cache)) by lia.
  apply (cache_find_take_mono _ _ _ n); [done|lia].
Qed.


Lemma read_count_log path q w :
  read_count path (log_read q w) =
  (read_count path w + if String.eqb path q then 1 else 0)%nat.
Proof.
  unfold read_count, log_read. simpl. rewrite List.filter_app, length_app.
  simpl. by destruct (String.eqb path q).
Qed.

(** A load leaves the exclusion registry and the log of runs alone. *)
Lemma file_info_frame rt path w :
  excluded (file_info rt path w).2 = excluded w
  ∧ runs (file_info rt path w).2 = runs w.
Proof.
  unfold file_info, FileInfo_new, mbind, M_bind, gets, modify, lift, mret,
    M_ret. simpl.
  destruct (cache_find path (file_info_cache w)); simpl; [done|].
  destruct (file_to_string rt path); simpl; [|done].
  destruct (ast_parse rt a path); simpl; done.
Qed.

(** A path found in the cache is served from it: no read, no new
    instance. *)
Lemma file_info_hit rt path w fi :
  cache_find path (file_info_cache w) = Some fi ->
  ∃ w', file_info rt path w = (Ok fi, w') ∧ reads w' = reads w
        ∧ next_id w' = next_id w.
Proof.
  intros H. unfold file_info, mbind, M_bind, gets, modify, mret, M_ret.
  simpl. rewrite H. simpl. by eexists.
Qed.

(** After a load that returned [fi], [fi] is the first entry of the
    cache. *)
Lemma file_info_front rt path w fi w1 :
  file_info rt path w = (Ok fi, w1) ->
  cache_find path (take 1 (file_info_cache w1)) = Some fi.
Proof.
  unfold file_info, FileInfo_new, mbind, M_bind, gets, modify, lift, mret,
    M_ret. simpl.
  destruct (cache_find path (file_info_cache w)) as [fi'|]; simpl.
  - intros [= <- <-]. simpl. rewrite take_0, cache_find_cons.
    by rewrite String.eqb_refl.
  - destruct (file_to_string rt path); simpl; [|done].
    destruct (ast_parse rt a path); simpl; [|done].
    intros [= <- <-]. simpl. rewrite take_0, cache_find_cons.
    by rewrite String.eqb_refl.
Qed.




(** ** The dispatcher *)

Lemma skip_excluded_app excl skipped frame rest :
  Forall (fun f => f_code f ∈ excl) skipped ->
  f_code frame ∉ excl ->
  forall first back, first :: back = skipped ++ frame :: rest ->
  skip_excluded excl first back = Ok frame.
Proof.
  induction skipped as [|s skipped IH]; intros Hskip Hframe first back Heq.
  - simpl in Heq. injection Heq as -> ->.
    destruct rest; simpl; by rewrite decide_False.
  - simpl in Heq. injection Heq as -> ->.
    apply Forall_cons_1 in Hskip as [Hs Hskip].
    destruct (skipped ++ frame :: rest) as [|first' back'] eqn:E.
    { by destruct skipped. }
    simpl. rewrite decide_True by done. by apply IH.
Qed.

Lemma Spell_get_unfold rt self frame0 back w :
  Spell_get rt self (frame0 :: back) w =
  match skip_excluded (excluded w) frame0 back with
  | Raise e => (Raise e, w)
  | Ok frame =>
      match FileInfo_for_frame rt frame w with
      | (Raise e, w') => (Raise e, w')
      | (Ok fi, w') =>
          match _attr_call_at fi (f_lineno frame) (func_name self) with
          | Raise e => (Raise e, w')
          | Ok None => (Ok (TheSpell self), w')
          | Ok (Some call) =>
              (Ok (Bound (Spell_getitem self {| frame := frame; call := call |})),
               w')
          end
      end
  end.
Proof.
  unfold Spell_get, mbind, M_bind, gets, lift, mret, M_ret. simpl.
  destruct (skip_excluded (excluded w) frame0 back) as [frame|e]; [|done].
  destruct (FileInfo_for_frame rt frame w) as [[fi|e] w']; [|done].
  destruct (_attr_call_at fi (f_lineno frame) (func_name self))
    as [[call|]|e]; done.
Qed.

Lemma Spell_call_unfold rt self frame back args w :
  Spell_call rt self (frame :: back) args w =
  match FileInfo_for_frame rt frame w with
  | (Raise e, w') => (Raise e, w')
  | (Ok fi, w') =>
      match _plain_call_at fi frame (spell_object self) with
      | Raise e => (Raise e, w')
      | Ok call =>
          (func self {| frame := frame; call := call |} args,
           log_run (spell_id self) {| frame := frame; call := call |} w')
      end
  end.
Proof.
  unfold Spell_call, wrapper_call, mbind, M_bind, gets, modify, lift, mret,
    M_ret. simpl.
  destruct (FileInfo_for_frame rt frame w) as [[fi|e] w']; [|done].
  destruct (_plain_call_at fi frame (spell_object self)) as [call|e]; [|done].
  simpl. by destruct (func self _ args).
Qed.

(** C6: when the line of the accessing frame holds no call through an
    attribute named like the wrapped function, the access returns the
    spell itself, and the wrapped function has not run. *)
Theorem get_without_call rt (self : Spell) (stack : list FrameType) (w : world)
    frame0 back frame fi w1 :
  _getframe1 stack = Ok (frame0, back) ->
  skip_excluded (excluded w) frame0 back = Ok frame ->
  FileInfo_for_frame rt frame w = (Ok fi, w1) ->
  (forall n, n ∈ line_nodes fi (f_lineno frame) ->
     is_attr_call (func_name self) n = false) ->
  Spell_get rt self stack w = (Ok (TheSpell self), w1) ∧ runs w1 = runs w.
Proof.
  intros Hstack Hskip Hfi Hnone.
  destruct stack as [|f0 b]; [done|]. injection Hstack as -> ->.
  rewrite Spell_get_unfold, Hskip, Hfi. split.
  - unfold _attr_call_at.
    assert (List.filter (is_attr_call (func_name self))
              (line_nodes fi (f_lineno frame)) = []) as ->; [|done].
    induction (line_nodes fi (f_lineno frame)) as [|n l IH]; [done|]. simpl.
    rewrite (Hnone n) by left. apply IH. intros m Hm. apply Hnone. by right.
  - unfold FileInfo_for_frame in Hfi.
    pose proof (file_info_frame rt (co_filename (f_code frame)) w) as [_ H].
    by rewrite Hfi in H.
Qed.

(** C9: an attribute access skips every frame whose code is registered
    and resolves at the first frame that is not; a direct call resolves
    at its immediate caller, registered or not, and the run is attributed
    to that frame.  Registering adds the code to the registry, and
    neither entry mode changes the registry. *)
Theorem frame_selection rt (self : Spell) (w : world) :
  (forall skipped fr rest,
     Forall (fun f => f_code f ∈ excluded w) skipped ->
     f_code fr ∉ excluded w ->
     Spell_get rt self (skipped ++ fr :: rest) w = Spell_get rt self [fr] w
     ∧ forall wr w', Spell_get rt self [fr] w = (Ok (Bound wr), w') ->
                     frame (w_frame_info wr) = fr)
  ∧ (forall fr rest args,
       Spell_call rt self (fr :: rest) args w = Spell_call rt self [fr] args w
       ∧ forall v w', Spell_call rt self [fr] args w = (Ok v, w') ->
           ∃ c, runs w' =
                runs w ++ [(spell_id self, {| frame := fr; call := c |})])
  ∧ (forall c, excluded (no_spells c w).2 = {[c]} ∪ excluded w)
  ∧ (forall stack args,
       excluded (Spell_get rt self stack w).2 = excluded w
       ∧ excluded (Spell_call rt self stack args w).2 = excluded w).
Proof.
  assert (Hload : forall fr,
            excluded (FileInfo_for_frame rt fr w).2 = excluded w
            ∧ runs (FileInfo_for_frame rt fr w).2 = runs w).
  { intros fr. apply file_info_frame. }
  split; [|split; [|split]].
  - intros skipped fr rest Hskip Hfr.
    assert (Hone : skip_excluded (excluded w) fr [] = Ok fr).
    { simpl. by rewrite decide_False. }
    split.
    + destruct (skipped ++ fr :: rest) as [|first back] eqn:E.
      { by destruct skipped. }
      rewrite !Spell_get_unfold, Hone.
      by rewrite (skip_excluded_app _ skipped fr rest Hskip Hfr first back).
    + intros wr w'. rewrite Spell_get_unfold, Hone.
      destruct (FileInfo_for_frame rt fr w) as [[fi|e] w'']; [|done].
      destruct (_attr_call_at fi (f_lineno fr) (func_name self))
        as [[c|]|e]; [|done..].
      by intros [= <- _].
  - intros fr rest args. split; [by rewrite !Spell_call_unfold|].
    intros v w'. rewrite Spell_call_unfold.
    destruct (Hload fr) as [_ Hruns].
    destruct (FileInfo_for_frame rt fr w) as [[fi|e] w'']; [|done].
    destruct (_plain_call_at fi fr (spell_object self)) as [c|e]; [|done].
    intros [= _ <-]. exists c. simpl in *. by rewrite Hruns.
  - done.
  - intros stack args. destruct stack as [|fr back]; [done|].
    rewrite Spell_get_unfold, Spell_call_unfold. split.
    + destruct (skip_excluded (excluded w) fr back) as [fr'|e]; [|done].
      destruct (Hload fr') as [Hex _].
      destruct (FileInfo_for_frame rt fr' w) as [[fi|e] w'']; [|done].
      by destruct (_attr_call_at fi (f_lineno fr') (func_name self))
        as [[c|]|e].
    + destruct (Hload fr) as [Hex _].
      destruct (FileInfo_for_frame rt fr w) as [[fi|e] w'']; [|done].
      by destruct (_plain_call_at fi fr (spell_object self)) as [c|e].
Qed.

(** ** Instances on the sample documents *)

(** [x = obj.f], [x = obj.f()] and [x = a.f() + b.f()], resolved for [f]. *)
Lemma attr_call_at_spec_witness :
  _attr_call_at (Samples.document Samples.attr_reference) 1 "f" = Ok None
  ∧ _attr_call_at (Samples.document Samples.attr_call) 1 "f"
    = Ok (Some (Samples.at_path Samples.attr_call [0; 1]%nat))
  ∧ _attr_call_at (Samples.document Samples.attr_call_twice) 1 "f"
    = Raise (ValueError "Found 2 possible calls to f").
Proof.
  split; [|split].
  - apply (attr_call_at_spec 0 "sample.py" "" Samples.attr_reference 1 "f").
    vm_compute. reflexivity.
  - apply (attr_call_at_spec 0 "sample.py" "" Samples.attr_call 1 "f").
    vm_compute. reflexivity.
  - apply (attr_call_at_spec 0 "sample.py" "" Samples.attr_call_twice 1 "f").
    vm_compute. lia.
Defined.

(** [x = f()], [a, b = f()], [self.value = f()] and [for k in f()], each
    at its call. *)
Lemma assigned_names_targets_witness :
  let fr := Samples.empty_frame 1 in
  let assigned tree path :=
    FrameInfo_assigned_names
      {| frame := fr; call := Samples.at_path tree path |} in
  let pair_of names tree path :=
    Ok (PyTuple [str_tuple names; PyNode (Samples.at_path tree path)]) in
  stmt_or_comprehension (Samples.at_path Samples.simple_assign [0; 1]%nat)
    = Ok (Samples.at_path Samples.simple_assign [0%nat])
  ∧ assigned Samples.simple_assign [0; 1]%nat
    = pair_of ["x"] Samples.simple_assign [0%nat]
  ∧ assigned Samples.tuple_assign [0; 1]%nat
    = pair_of ["a"; "b"] Samples.tuple_assign [0%nat]
  ∧ assigned Samples.attr_assign [0; 1]%nat
    = pair_of ["value"] Samples.attr_assign [0%nat]
  ∧ assigned Samples.for_header [0; 1]%nat
    = pair_of ["k"] Samples.for_header [0%nat].
Proof.
  intros fr assigned pair_of. split; [reflexivity|]. split; [|split; [|split]].
  - destruct (assigned_names_targets fr
                (Samples.at_path Samples.simple_assign [0; 1]%nat)
                (Samples.at_path Samples.simple_assign [0%nat]) eq_refl)
      as (H & _). eapply H. reflexivity.
  - destruct (assigned_names_targets fr
                (Samples.at_path Samples.tuple_assign [0; 1]%nat)
                (Samples.at_path Samples.tuple_assign [0%nat]) eq_refl)
      as (_ & H & _). eapply H; [reflexivity|].
    repeat constructor; by eexists.
  - destruct (assigned_names_targets fr
                (Samples.at_path Samples.attr_assign [0; 1]%nat)
                (Samples.at_path Samples.attr_assign [0%nat]) eq_refl)
      as (_ & _ & H & _). eapply H. reflexivity.
  - destruct (assigned_names_targets fr
                (Samples.at_path Samples.for_header [0; 1]%nat)
                (Samples.at_path Samples.for_header [0%nat]) eq_refl)
      as (_ & _ & _ & H). eapply H. reflexivity.
Defined.

(** For [x = f()] the property is not the bare tuple of names. *)
Lemma assigned_names_not_bare_names :
  FrameInfo_assigned_names
    {| frame := Samples.empty_frame 1;
       call := Samples.at_path Samples.simple_assign [0; 1]%nat |}
  ≠ Ok (str_tuple ["x"]).
Proof. vm_compute. discriminate. Qed.

(** The call [f()] of [g(f())] in a loop body: its statement is the
    expression statement. *)
Lemma nearest_assigned_names_nearest_witness :
  let c := Samples.at_path Samples.for_body [0; 2; 0; 1]%nat in
  let node := Samples.at_path Samples.for_body [0; 2]%nat in
  stmt_or_comprehension c = Ok node
  ∧ is_assignment_like (ast node) = false
  ∧ nearest_assigned_names c = Raise (TypeError "No assignment found").
Proof.
  intros c node. split; [reflexivity|]. split; [reflexivity|].
  apply (nearest_assigned_names_nearest c). exists node.
  split; reflexivity.
Defined.

(** The call [f()] in the body of the loop has the for-loop on its parent
    chain, and the derivation fails all the same. *)
Lemma no_assignment_despite_ancestor :
  let c := Samples.at_path Samples.for_body [0; 2; 0; 1]%nat in
  ¬ (nearest_assigned_names c = Raise (TypeError "No assignment found") ->
     Forall (fun n => is_assignment_like (ast n) = false) (chain c)).
Proof.
  intros c H. specialize (H eq_refl).
  apply Forall_cons_1 in H as [_ H]. apply Forall_cons_1 in H as [_ H].
  apply Forall_cons_1 in H as [_ H]. apply Forall_cons_1 in H as [H _].
  vm_compute in H. discriminate.
Qed.

(** [a = b = f()] *)
Lemma chained_assignment_raises_witness :
  let c := Samples.at_path Samples.chained_assign [0; 2]%nat in
  let node := Samples.at_path Samples.chained_assign [0%nat] in
  stmt_or_comprehension c = Ok node
  ∧ ast node = Assign 1 [Name 1 "a"; Name 1 "b"] (Call 1 (Name 1 "f") [] [])
  ∧ nearest_assigned_names c
    = Raise (AssertionError "Expected one value, found 2").
Proof.
  intros c node. split; [reflexivity|]. split; [reflexivity|].
  apply (chained_assignment_raises c node 1 [Name 1 "a"; Name 1 "b"]
           (Call 1 (Name 1 "f") [] [])); [reflexivity..|].
  simpl. lia.
Defined.

(** [x = f()] with [f] bound to the spell. *)
Lemma plain_call_at_spec_witness :
  let doc := Samples.document Samples.simple_assign in
  let fr := Samples.module_frame 1 in
  let val := spell_object Samples.the_spell in
  _plain_call_at doc fr val
  = Ok (Samples.at_path Samples.simple_assign [0; 1]%nat)
  ∧ ∃ stmt, forall n,
      n ∈ line_nodes doc 1 -> stmt_containing_node n = Ok stmt.
Proof.
  intros doc fr val. split; [reflexivity|].
  destruct (plain_call_at_spec 0 "sample.py" "" Samples.simple_assign fr val
              (Samples.at_path Samples.simple_assign [0; 1]%nat))
    as [[H _] _].
  destruct (H eq_refl) as (stmt & _ & Hall & _). by exists stmt.
Defined.

(** In [x = t[0]() or g()] with [g] bound to an object that equals
    everything, the resolver returns the call [g()], whose callee is not
    the expected object. *)
Lemma plain_call_equal_not_identical :
  let doc := Samples.document Samples.subscript_call in
  let fr := Samples.module_frame 1 in
  let val := spell_object Samples.the_spell in
  ¬ (forall c, _plain_call_at doc fr val = Ok c ->
       ∃ id v, func_id c = Ok id ∧ _resolve_var fr id = Ok v
               ∧ py_is v val = true).
Proof.
  intros doc fr val H.
  destruct (H (Samples.at_path Samples.subscript_call [0; 1; 1]%nat) eq_refl)
    as (id & v & Hid & Hv & His).
  vm_compute in Hid. injection Hid as <-.
  vm_compute in Hv. injection Hv as <-. vm_compute in His. discriminate.
Qed.




(** [x = obj.f]: the spell is only referenced. *)
Lemma get_without_call_witness :
  let rt := Samples.sample_runtime in
  let fr := Samples.reference_frame in
  let fi := FileInfo_init 0 "reference.py" "x = obj.f" Samples.attr_reference in
  let w1 := (FileInfo_for_frame rt fr initial_world).2 in
  FileInfo_for_frame rt fr initial_world = (Ok fi, w1)
  ∧ Spell_get rt Samples.the_spell [fr] initial_world
    = (Ok (TheSpell Samples.the_spell), w1)
  ∧ runs w1 = [].
Proof.
  intros rt fr fi w1. split; [reflexivity|].
  apply (get_without_call rt Samples.the_spell [fr] initial_world fr [] fr fi w1);
    [reflexivity..|].
  intros n Hn. vm_compute in Hn.
  repeat (apply elem_of_cons in Hn as [->|Hn]; [reflexivity|]).
  by apply elem_of_nil in Hn.
Defined.

(** [x = obj.f()] reached through the registered [__getattribute__]. *)
Lemma frame_selection_witness :
  let rt := Samples.sample_runtime in
  let w := (no_spells Samples.getattribute_code initial_world).2 in
  f_code Samples.getattribute_frame ∈ excluded w
  ∧ (f_code Samples.access_frame ∉ excluded w)
  ∧ Spell_get rt Samples.the_spell
      [Samples.getattribute_frame; Samples.access_frame] w
    = Spell_get rt Samples.the_spell [Samples.access_frame] w.
Proof.
  intros rt w.
  assert (Hin : f_code Samples.getattribute_frame ∈ excluded w).
  { apply elem_of_union. left. by apply elem_of_singleton. }
  assert (Hout : f_code Samples.access_frame ∉ excluded w).
  { intros [H|H]%elem_of_union; [|by apply elem_of_empty in H].
    apply elem_of_singleton in H. discriminate. }
  split; [done|]. split; [done|].
  destruct (frame_selection rt Samples.the_spell w) as [H _].
  apply (H [Samples.getattribute_frame] Samples.access_frame []); [|done].
  by repeat constructor.
Defined.

(** With [helper] registered, a direct call of the spell inside [helper]
    still resolves at the frame of [helper], not at its caller. *)
Lemma call_resolves_at_registered_caller :
  let rt := Samples.sample_runtime in
  let w := (no_spells Samples.helper_code initial_world).2 in
  let w' := (Spell_call rt Samples.the_spell
               [Samples.helper_frame; Samples.user_frame] [] w).2 in
  f_code Samples.helper_frame ∈ excluded w
  ∧ (f_code Samples.user_frame ∉ excluded w)
  ∧ Samples.helper_frame ≠ Samples.user_frame
  ∧ (fun r => frame r.2) <$> runs w' = [Samples.helper_frame].
Proof.
  intros rt w w'. split; [|split; [|split]].
  - apply elem_of_union. left. by apply elem_of_singleton.
  - intros [H|H]%elem_of_union; [|by apply elem_of_empty in H].
    apply elem_of_singleton in H. discriminate.
  - discriminate.
  - by vm_compute.
Qed.

(** * Further properties *)

(** ** Parent links and the line index *)




Lemma foldl_index_node_None nodes : forall (m : gmap Z (list pnode)) line,
  foldl index_node m nodes !! line = None ↔
  m !! line = None ∧ Forall (fun n => get_lineno (ast n) ≠ Some line) nodes.
Proof.
  induction nodes as [|n nodes IH]; intros m line; simpl.
  - split; [by intros ?; split|by intros [? _]].
  - rewrite IH, Forall_cons. unfold index_node.
    destruct (get_lineno (ast n)) as [l|] eqn:El.
    + destruct (decide (l = line)) as [->|Hne].
      * rewrite lookup_insert_eq. split; [by intros [? _]|].
        by intros [_ [? _]].
      * rewrite lookup_insert_ne by done. split.
        -- intros [? ?]. split; [done|]. split; [congruence|done].
        -- by intros [? [_ ?]].
    + split; [by intros [? ?]|by intros [? [_ ?]]].
Qed.

(** X2: the line index of a document is exact.  A line lists, in the
    order of the walk and each once, the nodes of the tree that carry
    this line number and no other node; the index has no entry for a line
    that no node carries. *)
Theorem line_index_exact id path src tree (line : Z) :
  let self := FileInfo_init id path src tree in
  line_nodes self line = List.filter (on_line line) (walk (root_node tree))
  ∧ NoDup (line_nodes self line)
  ∧ (forall n, n ∈ line_nodes self line ↔
       descendant (root_node tree) n ∧ get_lineno (ast n) = Some line)
  ∧ (nodes_by_line self !! line = None ↔
     forall n, descendant (root_node tree) n ->
               get_lineno (ast n) ≠ Some line).
Proof.
  intros self. split; [apply line_nodes_init|].
  split; [apply line_nodes_NoDup|]. split; [apply elem_of_line_nodes|].
  unfold self, FileInfo_init. simpl. rewrite foldl_index_node_None.
  rewrite lookup_empty, Forall_forall. split.
  - intros [_ H] n Hn. by apply H, elem_of_walk.
  - intros H. split; [done|]. intros n Hn. by apply H, elem_of_walk.
Qed.

(** ** Enclosing statements and target names *)

Lemma chain_suffix n : forall pre m post,
  chain n = pre ++ m :: post -> chain m = m :: post.
Proof.
  induction n as [ps a|ps a p IH] using pnode_up_ind; intros pre m post H.
  - destruct pre as [|x pre]; simpl in H.
    + by injection H as <- <-.
    + injection H as _ H. by destruct pre.
  - destruct pre as [|x pre]; simpl in H.
    + by injection H as <- <-.
    + injection H as _ H. by eapply IH.
Qed.

(** X3: [stmt_containing_node] returns the nearest statement on the way
    up from the node: the node itself when it is a statement, otherwise
    the first statement among its ancestors.  Every node passed on the
    way has the same enclosing statement, and the statement is its own.
    The function raises, with the [AttributeError] for the missing
    [parent] of the root, exactly when no node on the way up is a
    statement. *)
Theorem enclosing_statement (n : pnode) :
  (forall s, stmt_containing_node n = Ok s ->
     ∃ pre post, chain n = pre ++ s :: post
       ∧ Forall (fun m => is_stmt (ast m) = false
                          ∧ stmt_containing_node m = Ok s) pre
       ∧ is_stmt (ast s) = true
       ∧ stmt_containing_node s = Ok s)
  ∧ (forall e, stmt_containing_node n = Raise e ↔
       Forall (fun m => is_stmt (ast m) = false) (chain n)
       ∧ ∃ r, last (chain n) = Some r ∧ e = no_parent (ast r)).
Proof.
  split.
  - intros s Hs. pose proof Hs as (pre & post & Hc & Hpre & Hst)%ascend_until_Ok.
    exists pre, post. split; [done|]. split; [|split; [done|]].
    + apply Forall_forall. intros m Hm. split.
      { by apply (proj1 (Forall_forall _ _) Hpre). }
      apply list_elem_of_split in Hm as (pre1 & pre2 & ->).
      rewrite <- app_assoc in Hc. simpl in Hc.
      apply chain_suffix in Hc. apply ascend_until_Ok.
      exists (m :: pre2), post. split; [done|]. split; [|done].
      apply Forall_app in Hpre as [_ Hpre]. done.
    + apply chain_suffix in Hc. apply ascend_until_Ok.
      exists [], post. by split.
  - intros e. split; [apply ascend_until_Raise|].
    intros [Hall (r & Hr & ->)]. unfold stmt_containing_node.
    induction n as [ps a|ps a p IH] using pnode_up_ind; simpl in *.
    + apply Forall_cons_1 in Hall as [Ha _]. simpl in Ha. rewrite Ha.
      by injection Hr as <-.
    + apply Forall_cons_1 in Hall as [Ha Hall]. simpl in Ha. rewrite Ha.
      apply IH; [done|]. by destruct p.
Qed.

Lemma node_name_Ok a : is_named a = true -> ∃ x, node_name a = Ok x.
Proof. destruct a; try done; by eexists. Qed.

Lemma node_name_Raise a e :
  node_name a = Raise e -> is_named a = false ∧ e = cannot_extract a.
Proof. destruct a; try done; by intros [= <-]. Qed.

Lemma mapR_node_name_Ok elts :
  forallb is_named elts = true ->
  ∃ names, mapR node_name elts = Ok names.
Proof.
  induction elts as [|a elts IH]; simpl; [by eexists|].
  intros [Ha Helts]%andb_true_iff.
  destruct (node_name_Ok a Ha) as [x ->]. destruct (IH Helts) as [xs ->].
  by eexists.
Qed.

Lemma mapR_node_name_Ok_inv elts names :
  mapR node_name elts = Ok names -> forallb is_named elts = true.
Proof.
  revert names. induction elts as [|a elts IH]; intros names; simpl; [done|].
  intros (x & Hx & (xs & Hxs & _)%bind_Ok)%bind_Ok.
  rewrite (IH _ Hxs). by destruct a.
Qed.

Lemma mapR_node_name_Raise elts e :
  mapR node_name elts = Raise e ->
  ∃ a, a ∈ elts ∧ is_named a = false ∧ e = cannot_extract a.
Proof.
  induction elts as [|a elts IH]; simpl; [done|].
  intros [Ha|(x & _ & [H|(xs & _ & [=])]%bind_Raise)]%bind_Raise.
  - apply node_name_Raise in Ha as [? ?]. exists a. split; [left|done].
  - destruct (IH H) as (b & ? & ? & ?). exists b. split; [by right|done].
Qed.

Lemma node_names_succeeds target :
  (∃ names, node_names target = Ok names) ↔ names_extractable target = true.
Proof.
  split.
  - intros [names H]. destruct target; simpl in *; try done.
    all: by eapply mapR_node_name_Ok_inv.
  - intros H. destruct target; simpl in *; try done; try (by eexists).
    all: by apply mapR_node_name_Ok.
Qed.

Lemma node_names_Raise target e :
  node_names target = Raise e ->
  ∃ a, e = cannot_extract a ∧ is_named a = false
       ∧ (a = target ∨ a ∈ iter_child_nodes target).
Proof.
  intros H.
  assert (Hsingle : (node_name target ≫= fun name => Ok [name]) = Raise e ->
            ∃ a, e = cannot_extract a ∧ is_named a = false
                 ∧ (a = target ∨ a ∈ iter_child_nodes target)).
  { intros [Hr|(x & _ & [=])]%bind_Raise.
    apply node_name_Raise in Hr as [? ->]. exists target.
    split; [done|]. split; [done|]. by left. }
  destruct target; try (by apply Hsingle).
  all: apply mapR_node_name_Raise in H as (a & Ha & ? & ?).
  all: exists a; split; [done|]; split; [done|]; by right.
Qed.

(** X4: [node_names] gives names exactly for a name, an attribute access,
    or a tuple or list made of such nodes: one name per element, in
    order.  A nested tuple, a subscript or any other target raises the
    [TypeError] that names the class of the node without a name. *)
Theorem node_names_spec (target : AST) :
  ((∃ names, node_names target = Ok names) ↔ names_extractable target = true)
  ∧ (forall names, node_names target = Ok names ->
       match target with
       | Tuple _ elts | List _ elts =>
           Forall2 (fun e x => node_name e = Ok x) elts names
       | _ => ∃ x, names = [x] ∧ node_name target = Ok x
       end)
  ∧ (forall e, node_names target = Raise e ->
       ∃ a, e = cannot_extract a ∧ is_named a = false
            ∧ (a = target ∨ a ∈ iter_child_nodes target)).
Proof.
  split; [apply node_names_succeeds|]. split; [|apply node_names_Raise].
  intros names H. destruct target; simpl in *; try done.
  all: try (injection H as <-; by eexists).
  all: by apply mapR_Ok.
Qed.

(** X5: the derivation of assigned names succeeds exactly when the
    nearest statement or comprehension clause above the node is an
    assignment with a single target, a for-loop or a comprehension
    clause, and its target is a name, an attribute access, or a tuple or
    list of these.  In every other case it raises one of four
    exceptions: the [AttributeError] of the root (no statement above),
    the [TypeError] for a missing assignment, the [AssertionError] of
    [only] (a number of targets other than one), or the [TypeError] for
    a target without a name. *)
Theorem assigned_names_outcomes (c : pnode) :
  ((∃ names node, nearest_assigned_names c = Ok (names, node)) ↔
   ∃ s, stmt_or_comprehension c = Ok s ∧ assignable (ast s) = true)
  ∧ (forall e, nearest_assigned_names c = Raise e ->
       (∃ r, last (chain c) = Some r ∧ e = no_parent (ast r))
       ∨ e = TypeError "No assignment found"
       ∨ (∃ k, k ≠ 1%nat ∧ e = found k)
       ∨ (∃ a, e = cannot_extract a)).
Proof.
  assert (Htarget : forall s target,
            assignment_target (ast s) = Ok target ->
            assignable (ast s) = names_extractable target).
  { intros s target H. destruct (ast s); simpl in *; try done.
    - by apply only_Ok in H as ->.
    - by injection H as ->.
    - by injection H as ->. }
  split.
  - split.
    + intros (names & node & H). unfold nearest_assigned_names in H.
      apply bind_Ok in H as (s & Hs & (target & Ht & (ns & Hns & _)%bind_Ok)%bind_Ok).
      exists s. split; [done|]. rewrite (Htarget _ _ Ht).
      apply node_names_succeeds. by exists ns.
    + intros (s & Hs & Ha). rewrite (nearest_assigned_names_unfold _ _ Hs).
      destruct (assignment_target (ast s)) as [target|e] eqn:Et.
      * rewrite (Htarget _ _ Et) in Ha.
        apply node_names_succeeds in Ha as [names Hn].
        exists names, s. simpl. by rewrite Hn.
      * exfalso. destruct (ast s); simpl in *; try done.
        destruct targets as [|t [|t' targets]]; simpl in *; done.
  - intros e H. unfold nearest_assigned_names in H.
    apply bind_Raise in H as [H|(s & Hs & H)].
    { left. by apply ascend_until_Raise in H as [_ ?]. }
    right. apply bind_Raise in H as [H|(target & Ht & H)].
    + destruct (ast s); simpl in H; try (injection H as <-; by left).
      * right. left. apply only_Raise in H as [Hk ->]. by eexists.
      * done.
      * done.
    + right. right. apply bind_Raise in H as [H|(names & _ & [=])].
      apply node_names_Raise in H as (a & -> & _). by exists a.
Qed.

(** ** Lines and statements *)

Lemma line_nodes_empty id path src tree line :
  (forall n, descendant (root_node tree) n -> get_lineno (ast n) ≠ Some line) ->
  line_nodes (FileInfo_init id path src tree) line = [].
Proof.
  intros H. destruct (line_nodes _ line) as [|n l] eqn:E; [done|].
  assert (Hn : n ∈ line_nodes (FileInfo_init id path src tree) line).
  { rewrite E. left. }
  apply elem_of_line_nodes in Hn as [Hd Hl]. by destruct (H n Hd).
Qed.

(** X6: on a line that no node of the document carries (a blank line, a
    comment, the closing line of a bracket, a line past the end of the
    file) attribute-style resolution answers [None], and bare-name
    resolution raises the [AssertionError] of [only] for zero
    statements. *)
Theorem line_without_nodes id path src tree (frame : FrameType)
    (name : string) (val : object) :
  let self := FileInfo_init id path src tree in
  (forall n, descendant (root_node tree) n ->
             get_lineno (ast n) ≠ Some (f_lineno frame)) ->
  _attr_call_at self (f_lineno frame) name = Ok None
  ∧ _calls_in_stmt_at_line self (f_lineno frame) = Raise (found 0)
  ∧ _plain_call_at self frame val = Raise (found 0).
Proof.
  intros self H. unfold _plain_call_at, _calls_in_stmt_at_line, _attr_call_at.
  unfold self. by rewrite (line_nodes_empty _ _ _ _ _ H).
Qed.

(** X7: when the nodes of a line belong to more than one statement (a
    compound statement written on one line, or statements joined by a
    semicolon), bare-name resolution fails; with a statement above every
    node of the line the exception is the [AssertionError] of [only]
    with the number of statements. *)
Theorem line_with_two_statements id path src tree (frame : FrameType)
    (val : object) (n1 n2 s1 s2 : pnode) :
  let self := FileInfo_init id path src tree in
  n1 ∈ line_nodes self (f_lineno frame) ->
  n2 ∈ line_nodes self (f_lineno frame) ->
  stmt_containing_node n1 = Ok s1 ->
  stmt_containing_node n2 = Ok s2 ->
  s1 ≠ s2 ->
  (∃ e, _calls_in_stmt_at_line self (f_lineno frame) = Raise e
        ∧ _plain_call_at self frame val = Raise e)
  ∧ (forall stmts,
       mapR stmt_containing_node (line_nodes self (f_lineno frame)) = Ok stmts ->
       (2 <= length (node_set stmts))%nat
       ∧ _plain_call_at self frame val = Raise (found (length (node_set stmts)))).
Proof.
  intros self Hn1 Hn2 Hs1 Hs2 Hne.
  assert (Hroot : forall n s, n ∈ line_nodes self (f_lineno frame) ->
            stmt_containing_node n = Ok s -> descendant (root_node tree) s).
  { intros n s [Hn _]%elem_of_line_nodes Hs.
    by apply (ascend_until_descendant _ (root_node tree)) in Hs as [? _]. }
  split.
  - destruct (_calls_in_stmt_at_line self (f_lineno frame)) as [calls|e] eqn:E.
    + apply calls_in_stmt_at_line_Ok in E as (stmt & _ & Hall & _).
      rewrite (Hall n1 Hn1) in Hs1. rewrite (Hall n2 Hn2) in Hs2. congruence.
    + exists e. split; [done|]. unfold _plain_call_at. fold self.
      by rewrite E.
  - intros stmts Hstmts.
    assert (Hlen : (2 <= length (node_set stmts))%nat).
    { pose proof Hstmts as HF%mapR_Ok.
      assert (Hin : forall n s, n ∈ line_nodes self (f_lineno frame) ->
                stmt_containing_node n = Ok s ->
                ∃ y, y ∈ node_set stmts ∧ pos s = pos y
                     ∧ descendant (root_node tree) y).
      { intros n s Hn Hs. pose proof Hn as [i Hi]%list_elem_of_lookup.
        destruct (Forall2_lookup_l _ _ _ _ _ HF Hi) as (s' & Hs' & Hns).
        assert (s' = s) as -> by congruence.
        destruct (node_set_cover stmts s) as (y & Hy & Hpos);
          [by eapply list_elem_of_lookup_2|].
        exists y. split; [done|]. split; [done|].
        pose proof (node_set_elem _ _ Hy) as [j Hj]%list_elem_of_lookup.
        destruct (Forall2_lookup_r _ _ _ _ _ HF Hj) as (m & Hm & Hmy).
        eapply Hroot; [|done]. by eapply list_elem_of_lookup_2. }
      destruct (Hin n1 s1 Hn1 Hs1) as (y1 & Hy1 & Hp1 & Hd1).
      destruct (Hin n2 s2 Hn2 Hs2) as (y2 & Hy2 & Hp2 & Hd2).
      apply (two_elements_length _ y1 y2); [done..|].
      intros ->. apply Hne.
      transitivity y2; [|symmetry];
        apply (descendant_pos_inj (root_node tree)); eauto. }
    split; [done|]. unfold _plain_call_at, _calls_in_stmt_at_line.
    fold self. rewrite Hstmts. simpl.
    destruct (node_set stmts) as [|a [|b l]]; simpl in Hlen; [lia..|]. done.
Qed.

(** ** Resolution without a single match *)

Lemma filterR_none {A} (c : A -> result bool) l :
  (forall x, x ∈ l -> c x = Ok false) -> filterR c l = Ok [].
Proof.
  induction l as [|x l IH]; intros H; simpl; [done|].
  rewrite (H x) by left. simpl. rewrite IH; [done|].
  intros y Hy. apply H. by right.
Qed.

Lemma filterR_raises {A} (c : A -> result bool) l x e0 :
  x ∈ l -> c x = Raise e0 ->
  ∃ y e, y ∈ l ∧ c y = Raise e ∧ filterR c l = Raise e.
Proof.
  induction l as [|a l IH]; intros Hx Hc; [by apply elem_of_nil in Hx|].
  simpl. destruct (c a) as [b|e] eqn:Ea.
  - apply elem_of_cons in Hx as [->|Hx]; [congruence|].
    destruct (IH Hx Hc) as (y & e & Hy & Hcy & Hf).
    exists y, e. split; [by right|]. split; [done|]. simpl. by rewrite Hf.
  - exists a, e. split; [left|]. by split.
Qed.

(** X8: when the statement of the line holds no bare-name call whose
    callee resolves to a value equal to the expected one (the callable
    was reached through an attribute, a subscript, or from built-in
    code such as [map]), bare-name resolution raises the
    [AssertionError] of [only] for zero matches. *)
Theorem plain_call_no_match (self : FileInfo) (frame : FrameType)
    (val : object) (calls : list pnode) :
  _calls_in_stmt_at_line self (f_lineno frame) = Ok calls ->
  (forall n, n ∈ calls -> resolves_to frame val n = Ok false) ->
  _plain_call_at self frame val = Raise (found 0).
Proof.
  intros Hcalls Hnone. unfold _plain_call_at. rewrite Hcalls. simpl.
  by rewrite (filterR_none _ _ Hnone).
Qed.

(** X9: every bare-name callee of the statement is looked up in the
    frame, not only the one that is being called.  When one of them is
    bound in none of the three namespaces, resolution raises the
    [NameError] of such a name, whatever the other calls resolve to. *)
Theorem plain_call_unbound_name (self : FileInfo) (frame : FrameType)
    (val : object) (calls : list pnode) (n : pnode) (id : string) :
  _calls_in_stmt_at_line self (f_lineno frame) = Ok calls ->
  n ∈ calls -> func_id n = Ok id ->
  f_locals frame !! id = None -> f_globals frame !! id = None ->
  f_builtins frame !! id = None ->
  ∃ m name, m ∈ calls ∧ func_id m = Ok name
    ∧ _resolve_var frame name = Raise (NameError name)
    ∧ _plain_call_at self frame val = Raise (NameError name).
Proof.
  intros Hcalls Hn Hid Hl Hg Hb.
  assert (Hres : _resolve_var frame id = Raise (NameError id)).
  { unfold _resolve_var. simpl. by rewrite Hl, Hg, Hb. }
  assert (Hraise : resolves_to frame val n = Raise (NameError id)).
  { unfold resolves_to. rewrite Hid. simpl. by rewrite Hres. }
  destruct (filterR_raises _ calls n _ Hn Hraise) as (m & e & Hm & Hme & Hf).
  assert (Hplain : is_plain_call m = true).
  { pose proof Hcalls as Hc. unfold _calls_in_stmt_at_line in Hc.
    apply bind_Ok in Hc as (stmts & _ & (stmt & _ & [= <-])%bind_Ok).
    apply list_elem_of_In, filter_In in Hm. tauto. }
  unfold is_plain_call in Hplain. unfold resolves_to, func_id in Hme.
  destruct (ast m) as [| | | | | | |l f args kw| | | | |] eqn:Em; try done.
  destruct f as [| | | | |l' name| | | | | | |]; try done. simpl in Hme.
  exists m, name. split; [done|]. split; [by unfold func_id; rewrite Em|].
  assert (Hrn : _resolve_var frame name = Raise e).
  { destruct (_resolve_var frame name); simpl in Hme; [done|congruence]. }
  assert (e = NameError name) as ->.
  { unfold _resolve_var in Hrn. simpl in Hrn.
    destruct (f_locals frame !! name); [done|].
    destruct (f_globals frame !! name); [done|].
    destruct (f_builtins frame !! name); [done|]. congruence. }
  split; [done|]. unfold _plain_call_at. rewrite Hcalls. simpl. by rewrite Hf.
Qed.

(** ** The cache as a whole *)

Lemma file_info_unfold rt path w :
  file_info rt path w =
  match cache_find path (file_info_cache w) with
  | Some fi =>
      (Ok fi, set_cache ((path, fi) :: cache_remove path (file_info_cache w)) w)
  | None =>
      match file_to_string rt path with
      | Raise e => (Raise e, log_read path w)
      | Ok src =>
          match ast_parse rt src path with
          | Raise e => (Raise e, log_read path w)
          | Ok tree =>
              let fi := FileInfo_init (next_id w) path src tree in
              (Ok fi,
               set_cache (take maxsize ((path, fi) :: file_info_cache w))
                         (fresh_id (log_read path w)))
          end
      end
  end.
Proof.
  unfold file_info, FileInfo_new, mbind, M_bind, gets, modify, lift, mret,
    M_ret. simpl.
  destruct (cache_find path (file_info_cache w)); [done|]. simpl.
  destruct (file_to_string rt path) as [src|e]; [|done]. simpl.
  by destruct (ast_parse rt src path).
Qed.

Lemma cache_find_Some path cache fi :
  cache_find path cache = Some fi -> (path, fi) ∈ cache.
Proof.
  induction cache as [|[q g] cache IH]; [done|]. rewrite cache_find_cons.
  destruct (String.eqb q path) eqn:E.
  - apply String.eqb_eq in E as ->. intros [= ->]. left.
  - intros H. right. by apply IH.
Qed.

Lemma cache_find_None path cache :
  cache_find path cache = None ↔ path ∉ cache.*1.
Proof.
  induction cache as [|[q g] cache IH]; simpl.
  - split; [intros _; apply not_elem_of_nil|done].
  - rewrite cache_find_cons, not_elem_of_cons.
    destruct (String.eqb q path) eqn:E.
    + apply String.eqb_eq in E as ->. split; [done|]. by intros [? _].
    + apply String.eqb_neq in E. rewrite IH. split; [|by intros [_ ?]].
      intros ?. split; [congruence|done].
Qed.

Lemma cache_remove_sublist path cache : cache_remove path cache `sublist_of` cache.
Proof.
  induction cache as [|[q g] cache IH]; [done|]. unfold cache_remove. simpl.
  destruct (String.eqb q path); simpl.
  - by apply sublist_cons.
  - by apply sublist_skip.
Qed.

Lemma cache_remove_keys path cache : path ∉ (cache_remove path cache).*1.
Proof.
  induction cache as [|[q g] cache IH]; simpl; [apply not_elem_of_nil|].
  unfold cache_remove. simpl. destruct (String.eqb q path) eqn:E; simpl.
  - done.
  - apply not_elem_of_cons. split; [|done].
    apply String.eqb_neq in E. congruence.
Qed.

Lemma cache_remove_length path cache fi :
  cache_find path cache = Some fi ->
  (S (length (cache_remove path cache)) <= length cache)%nat.
Proof.
  induction cache as [|[q g] cache IH]; [done|]. rewrite cache_find_cons.
  unfold cache_remove. simpl. fold (cache_remove path cache).
  destruct (String.eqb q path); simpl.
  - intros _. pose proof (sublist_length _ _ (cache_remove_sublist path cache)).
    fold (cache_remove path cache). lia.
  - intros H%IH. lia.
Qed.

(** X10: a load that raises stores nothing.  The cache and the identity
    counter are as before, the attempt is in the log of reads, and the
    next load of the path tries the file again. *)
Theorem failed_load_not_cached rt (path : string) (w w1 : world) (e : exn) :
  file_info rt path w = (Raise e, w1) ->
  file_info_cache w1 = file_info_cache w
  ∧ next_id w1 = next_id w
  ∧ reads w1 = reads w ++ [path]
  ∧ file_info rt path w1 = (Raise e, log_read path w1)
  ∧ read_count path (log_read path w1) = S (S (read_count path w)).
Proof.
  rewrite file_info_unfold.
  destruct (cache_find path (file_info_cache w)) as [fi|] eqn:Ef; [done|].
  assert (Hcount : read_count path (log_read path (log_read path w))
                   = S (S (read_count path w))).
  { rewrite !read_count_log, String.eqb_refl. lia. }
  destruct (file_to_string rt path) as [src|e1] eqn:Es.
  - destruct (ast_parse rt src path) as [tree|e2] eqn:Ep; [done|].
    intros [= <- <-]. do 3 (split; [done|]). split; [|done].
    rewrite file_info_unfold. simpl. by rewrite Ef, Es, Ep.
  - intros [= <- <-]. do 3 (split; [done|]). split; [|done].
    rewrite file_info_unfold. simpl. by rewrite Ef, Es.
Qed.

Lemma file_info_bounded rt path w :
  cache_bounded w -> cache_bounded (file_info rt path w).2.
Proof.
  intros [Hlen Hnd]. rewrite file_info_unfold.
  destruct (cache_find path (file_info_cache w)) as [fi|] eqn:Ef.
  - split; simpl.
    + pose proof (cache_remove_length _ _ _ Ef). lia.
    + constructor; [apply cache_remove_keys|].
      eapply sublist_NoDup; [done|]. apply fmap_sublist, cache_remove_sublist.
  - destruct (file_to_string rt path) as [src|e1]; [|by split].
    destruct (ast_parse rt src path) as [tree|e2]; [|by split].
    split; cbn -[take].
    + rewrite length_take. apply Nat.le_min_l.
    + eapply (sublist_NoDup _ (path :: (file_info_cache w).*1)).
      * constructor; [by apply cache_find_None|done].
      * change (path :: (file_info_cache w).*1) with
          (((path, FileInfo_init (next_id w) path src tree)
            :: file_info_cache w).*1).
        apply fmap_sublist, sublist_take.
Qed.

(** X11: the cache never holds more than 128 documents nor two for one
    path.  This holds in the initial state and is kept by every load, by
    an attribute access and by a direct call. *)
Theorem cache_stays_bounded rt :
  cache_bounded initial_world
  ∧ (forall path w, cache_bounded w -> cache_bounded (file_info rt path w).2)
  ∧ (forall self stack w,
       cache_bounded w -> cache_bounded (Spell_get rt self stack w).2)
  ∧ (forall self stack args w,
       cache_bounded w -> cache_bounded (Spell_call rt self stack args w).2).
Proof.
  split; [|split; [|split]].
  - split; simpl; [unfold maxsize; lia|constructor].
  - intros path w. apply file_info_bounded.
  - intros self [|fr back] w Hw; [done|]. rewrite Spell_get_unfold.
    destruct (skip_excluded (excluded w) fr back) as [fr'|e]; [|done].
    pose proof (file_info_bounded rt (co_filename (f_code fr')) w Hw) as H.
    unfold FileInfo_for_frame.
    destruct (file_info rt (co_filename (f_code fr')) w) as [[fi|e] w'];
      [|done].
    by destruct (_attr_call_at fi (f_lineno fr') (func_name self)) as [[c|]|e].
  - intros self [|fr back] args w Hw; [done|]. rewrite Spell_call_unfold.
    pose proof (file_info_bounded rt (co_filename (f_code fr)) w Hw) as H.
    unfold FileInfo_for_frame.
    destruct (file_info rt (co_filename (f_code fr)) w) as [[fi|e] w'];
      [|done].
    by destruct (_plain_call_at fi fr (spell_object self)) as [c|e].
Qed.

Lemma parsed_from_mono rt w w' e :
  parsed_from rt w e -> (next_id w <= next_id w')%nat -> parsed_from rt w' e.
Proof.
  intros (src & tree & ? & ? & ? & ?) Hle. exists src, tree.
  do 3 (split; [done|]). lia.
Qed.

Lemma Forall_sublist_of {A} (P : A -> Prop) (l1 l2 : list A) :
  l1 `sublist_of` l2 -> Forall P l2 -> Forall P l1.
Proof.
  induction 1 as [|x l1 l2 _ IH|x l1 l2 _ IH]; [done|..].
  - intros [? ?]%Forall_cons_1. constructor; [done|by apply IH].
  - intros [_ ?]%Forall_cons_1. by apply IH.
Qed.

Lemma cache_remove_ids path cache fi :
  NoDup (fi_id <$> cache.*2) ->
  cache_find path cache = Some fi ->
  fi_id fi ∉ fi_id <$> (cache_remove path cache).*2.
Proof.
  induction cache as [|[q g] cache IH]; [done|]. rewrite cache_find_cons.
  simpl. intros [Hg Hnd]%NoDup_cons.
  unfold cache_remove. simpl. fold (cache_remove path cache).
  destruct (String.eqb q path) eqn:E; simpl.
  - intros [= ->]. intros Hin. apply Hg.
    eapply elem_of_sublist; [done|].
    apply fmap_sublist, fmap_sublist, cache_remove_sublist.
  - intros Hf. apply not_elem_of_cons. split; [|by apply IH].
    intros Heq. apply Hg. rewrite <- Heq.
    apply cache_find_Some in Hf.
    apply list_elem_of_fmap. exists fi. split; [done|].
    apply list_elem_of_fmap. by exists (path, fi).
Qed.

Lemma file_info_faithful rt path w :
  cache_faithful rt w ->
  cache_faithful rt (file_info rt path w).2
  ∧ forall fi, (file_info rt path w).1 = Ok fi ->
               parsed_from rt (file_info rt path w).2 (path, fi).
Proof.
  intros [Hall Hnd]. rewrite file_info_unfold.
  destruct (cache_find path (file_info_cache w)) as [fi|] eqn:Ef.
  - assert (Hfi : parsed_from rt w (path, fi)).
    { apply (proj1 (Forall_forall _ _) Hall). by apply cache_find_Some. }
    split; [split|]; cbn.
    + constructor; [done|].
      eapply Forall_sublist_of; [apply cache_remove_sublist|done].
    + constructor; [by apply cache_remove_ids|].
      eapply sublist_NoDup; [done|].
      apply fmap_sublist, fmap_sublist, cache_remove_sublist.
    + by intros ? [= <-].
  - destruct (file_to_string rt path) as [src|e1] eqn:Es; [|by split].
    destruct (ast_parse rt src path) as [tree|e2] eqn:Ep; [|by split].
    set (fi := FileInfo_init (next_id w) path src tree).
    assert (Hnew : parsed_from rt (fresh_id (log_read path w)) (path, fi)).
    { exists src, tree. simpl. do 3 (split; [done|]). lia. }
    assert (Hold : Forall (parsed_from rt (fresh_id (log_read path w)))
                     (file_info_cache w)).
    { eapply Forall_impl; [done|]. intros e He.
      eapply parsed_from_mono; [done|]. simpl. lia. }
    split; [split|]; cbn -[take].
    + eapply Forall_sublist_of; [apply sublist_take|]. by constructor.
    + eapply (sublist_NoDup _ (fi_id <$> ((path, fi) :: file_info_cache w).*2)).
      * simpl. constructor; [|done].
        intros (g & Hg & (e & -> & He)%list_elem_of_fmap)%list_elem_of_fmap.
        apply (proj1 (Forall_forall _ _) Hall) in He
          as (? & ? & _ & _ & _ & Hlt). lia.
      * apply fmap_sublist, fmap_sublist, sublist_take.
    + intros ? [= <-]. done.
Qed.

(** X12: the documents of the cache are what their files say.  In the
    initial state and after any sequence of loads, every cached document
    is the index of the parse of the text of its own path, no two cached
    documents are the same instance, and a document that a load returns
    is the document of the path asked for. *)
Theorem cache_stays_faithful rt :
  cache_faithful rt initial_world
  ∧ (forall path w,
       cache_faithful rt w -> cache_faithful rt (file_info rt path w).2)
  ∧ (forall paths w,
       cache_faithful rt w -> cache_faithful rt (loads rt paths w))
  ∧ (forall path w fi w1,
       cache_faithful rt w -> file_info rt path w = (Ok fi, w1) ->
       ∃ src tree, file_to_string rt path = Ok src
         ∧ ast_parse rt src path = Ok tree
         ∧ fi = FileInfo_init (fi_id fi) path src tree
         ∧ (fi_id fi < next_id w1)%nat).
Proof.
  split; [|split; [|split]].
  - split; constructor.
  - intros path w Hw. by apply file_info_faithful.
  - intros paths. induction paths as [|p paths IH]; intros w Hw; [done|].
    simpl. apply IH. by apply file_info_faithful.
  - intros path w fi w1 Hw Hload.
    destruct (file_info_faithful rt path w Hw) as [_ H].
    rewrite Hload in H. by apply (H fi).
Qed.

(** ** More on the dispatcher *)

(** X13: an attribute access on a line with exactly one call through an
    attribute named like the wrapped function returns the wrapper bound
    to that call and to the selected frame, and calling the wrapper
    passes this [FrameInfo] and the arguments to the wrapped function.
    With two or more such calls the access raises the [ValueError] of
    the resolver; the document stays in the cache. *)
Theorem get_with_call rt (self : Spell) (stack : list FrameType) (w : world)
    frame0 back fr fi w1 :
  _getframe1 stack = Ok (frame0, back) ->
  skip_excluded (excluded w) frame0 back = Ok fr ->
  FileInfo_for_frame rt fr w = (Ok fi, w1) ->
  let options :=
    List.filter (is_attr_call (func_name self)) (line_nodes fi (f_lineno fr)) in
  (forall c args, options = [c] ->
     let frame_info := {| frame := fr; call := c |} in
     Spell_get rt self stack w = (Ok (Bound (Spell_getitem self frame_info)), w1)
     ∧ wrapper_call (Spell_getitem self frame_info) args w1
       = (func self frame_info args, log_run (spell_id self) frame_info w1))
  ∧ ((2 <= length options)%nat ->
       Spell_get rt self stack w
       = (Raise (ValueError ("Found " +:+ pretty (length options)
                               +:+ " possible calls to " +:+ func_name self)),
          w1)).
Proof.
  intros Hstack Hskip Hfi options.
  destruct stack as [|f0 b]; [done|]. injection Hstack as -> ->.
  rewrite Spell_get_unfold, Hskip, Hfi. unfold _attr_call_at. fold options.
  split.
  - intros c args ->. split; [done|].
    unfold wrapper_call, mbind, M_bind, modify, lift. simpl.
    by destruct (func self _ args).
  - intros Hlen. destruct options as [|a [|b l]]; simpl in Hlen; [lia..|].
    done.
Qed.

(** X14: an attribute access never runs the wrapped function.  A direct
    call runs it at most once: either resolution fails, the call raises
    and nothing has run, or the function has run once, with a
    [FrameInfo] of the immediate caller, and the call returns or raises
    what the function did. *)
Theorem runs_of_entry_modes rt (self : Spell) (w : world) :
  (forall stack, runs (Spell_get rt self stack w).2 = runs w)
  ∧ (forall stack args r w',
       Spell_call rt self stack args w = (r, w') ->
       (runs w' = runs w ∧ ∃ e, r = Raise e)
       ∨ (∃ fr back c, stack = fr :: back
            ∧ runs w' = runs w ++ [(spell_id self, {| frame := fr; call := c |})]
            ∧ r = func self {| frame := fr; call := c |} args)).
Proof.
  assert (Hload : forall fr, runs (FileInfo_for_frame rt fr w).2 = runs w).
  { intros fr. apply file_info_frame. }
  split.
  - intros [|fr back]; [done|]. rewrite Spell_get_unfold.
    destruct (skip_excluded (excluded w) fr back) as [fr'|e]; [|done].
    specialize (Hload fr').
    destruct (FileInfo_for_frame rt fr' w) as [[fi|e] w'']; [|done].
    by destruct (_attr_call_at fi (f_lineno fr') (func_name self))
      as [[c|]|e].
  - intros [|fr back] args r w'.
    { intros [= <- <-]. left. split; [done|]. by eexists. }
    rewrite Spell_call_unfold. specialize (Hload fr).
    destruct (FileInfo_for_frame rt fr w) as [[fi|e] w''].
    + destruct (_plain_call_at fi fr (spell_object self)) as [c|e].
      * intros [= <- <-]. right. exists fr, back, c. split; [done|].
        simpl in *. by rewrite Hload.
      * intros [= <- <-]. left. split; [done|]. by eexists.
    + intros [= <- <-]. left. split; [done|]. by eexists.
Qed.

Lemma skip_excluded_Ok excl fr back f :
  skip_excluded excl fr back = Ok f ->
  ∃ skipped rest, fr :: back = skipped ++ f :: rest
    ∧ Forall (fun g => f_code g ∈ excl) skipped ∧ f_code f ∉ excl.
Proof.
  revert fr. induction back as [|b back IH]; intros fr; simpl.
  - destruct (decide (f_code fr ∈ excl)); [done|].
    intros [= <-]. by exists [], [].
  - destruct (decide (f_code fr ∈ excl)).
    + intros (skipped & rest & Heq & Hs & Hf)%IH.
      exists (fr :: skipped), rest. simpl. rewrite Heq.
      split; [done|]. split; [by constructor|done].
    + intros [= <-]. by exists [], (b :: back).
Qed.

Lemma skip_excluded_Raise excl fr back e :
  skip_excluded excl fr back = Raise e ↔
  Forall (fun g => f_code g ∈ excl) (fr :: back)
  ∧ e = AttributeError "'NoneType' object has no attribute 'f_code'".
Proof.
  revert fr. induction back as [|b back IH]; intros fr; simpl.
  - destruct (decide (f_code fr ∈ excl)); split.
    + intros [= <-]. split; [by repeat constructor|done].
    + by intros [_ ->].
    + done.
    + by intros [[? _]%Forall_cons_1 _].
  - destruct (decide (f_code fr ∈ excl)); rewrite ?IH; split.
    + intros [? ->]. split; [by constructor|done].
    + intros [[_ ?]%Forall_cons_1 ->]. done.
    + done.
    + by intros [[? _]%Forall_cons_1 _].
Qed.

(** X15: the frame that the walk of [__get__] selects is the first frame
    of the stack whose code is not registered; a registered frame is
    never selected.  When every frame of the stack is registered the
    walk runs off the end of the stack: the access raises
    [AttributeError] and no file is loaded. *)
Theorem excluded_frames_skipped rt (self : Spell) (w : world)
    (fr : FrameType) (back : list FrameType) :
  (forall f, skip_excluded (excluded w) fr back = Ok f ↔
     ∃ skipped rest, fr :: back = skipped ++ f :: rest
       ∧ Forall (fun g => f_code g ∈ excluded w) skipped
       ∧ f_code f ∉ excluded w)
  ∧ (Forall (fun g => f_code g ∈ excluded w) (fr :: back) ->
       Spell_get rt self (fr :: back) w
       = (Raise (AttributeError "'NoneType' object has no attribute 'f_code'"),
          w)).
Proof.
  split.
  - intros f. split; [apply skip_excluded_Ok|].
    intros (skipped & rest & Heq & Hs & Hf).
    by apply (skip_excluded_app _ skipped f rest).
  - intros Hall. rewrite Spell_get_unfold.
    by rewrite (proj2 (skip_excluded_Raise _ _ _ _) (conj Hall eq_refl)).
Qed.

(** ** The registry *)

Lemma add_excluded_eq c w w' :
  file_info_cache w = file_info_cache w' -> next_id w = next_id w' ->
  reads w = reads w' -> runs w = runs w' ->
  {[c]} ∪ excluded w = excluded w' -> add_excluded c w = w'.
Proof.
  destruct w, w'. unfold add_excluded. simpl. by intros -> -> -> -> ->.
Qed.

(** X16: registering returns the function's code as it is and touches
    nothing but the registry.  Registering the same code again changes
    nothing, and the order of two registrations does not matter. *)
Theorem no_spells_compose (c d : code) (w : world) :
  (no_spells c w).1 = Ok c
  ∧ (no_spells c (no_spells c w).2).2 = (no_spells c w).2
  ∧ (no_spells c (no_spells d w).2).2 = (no_spells d (no_spells c w).2).2
  ∧ file_info_cache (no_spells c w).2 = file_info_cache w
  ∧ next_id (no_spells c w).2 = next_id w
  ∧ reads (no_spells c w).2 = reads w
  ∧ runs (no_spells c w).2 = runs w.
Proof.
  split; [done|]. split; [|split; [|done]].
  - apply add_excluded_eq; try done. simpl. set_solver.
  - apply add_excluded_eq; try done. simpl. set_solver.
Qed.

Lemma file_info_add_excluded rt path c w :
  file_info rt path (add_excluded c w)
  = ((file_info rt path w).1, add_excluded c (file_info rt path w).2).
Proof.
  rewrite !file_info_unfold. simpl.
  destruct (cache_find path (file_info_cache w)); [done|].
  destruct (file_to_string rt path) as [src|e]; [|done].
  by destruct (ast_parse rt src path).
Qed.

Lemma skip_excluded_add c excl fr back :
  Forall (fun f => f_code f ≠ c) (fr :: back) ->
  skip_excluded ({[c]} ∪ excl) fr back = skip_excluded excl fr back.
Proof.
  revert fr. induction back as [|b back IH]; intros fr Hall; simpl.
  - apply Forall_cons_1 in Hall as [Hfr _].
    destruct (decide (f_code fr ∈ excl));
      [rewrite decide_True by set_solver|rewrite decide_False by set_solver];
      done.
  - apply Forall_cons_1 in Hall as [Hfr Hall].
    destruct (decide (f_code fr ∈ excl));
      [rewrite decide_True by set_solver|rewrite decide_False by set_solver];
      [by apply IH|done].
Qed.

(** X17: registering a code that none of the frames of the stack runs
    changes no attribute access: the access returns or raises the same,
    and leaves the same state but for the larger registry. *)
Theorem unrelated_registration rt (self : Spell) (stack : list FrameType)
    (c : code) (w : world) :
  Forall (fun f => f_code f ≠ c) stack ->
  Spell_get rt self stack (add_excluded c w)
  = ((Spell_get rt self stack w).1,
     add_excluded c (Spell_get rt self stack w).2).
Proof.
  intros Hall. destruct stack as [|fr back]; [done|].
  rewrite !Spell_get_unfold. simpl.
  rewrite (skip_excluded_add _ _ _ _ Hall).
  destruct (skip_excluded (excluded w) fr back) as [fr'|e]; [|done].
  unfold FileInfo_for_frame. rewrite file_info_add_excluded.
  destruct (file_info rt (co_filename (f_code fr')) w) as [[fi|e] w']; [|done].
  simpl.
  by destruct (_attr_call_at fi (f_lineno fr') (func_name self)) as [[c'|]|e].
Qed.

(** ** The document of a FrameInfo *)

Lemma file_info_again rt path w fi w1 :
  file_info rt path w = (Ok fi, w1) ->
  ∃ w2, file_info rt path w1 = (Ok fi, w2)
        ∧ reads w2 = reads w1 ∧ next_id w2 = next_id w1.
Proof.
  intros Hload%file_info_front. apply file_info_hit.
  by eapply cache_find_take_all.
Qed.

(** X18: the [FrameInfo] that an attribute access binds belongs to the
    document the call was found in.  Its [file_info] is that document,
    served from the cache without a read, and its [call] is a node on
    the frame's line of that document: a call through an attribute
    named like the wrapped function. *)
Theorem frame_info_document rt (self : Spell) (stack : list FrameType)
    (w w1 : world) (wr : wrapper) :
  Spell_get rt self stack w = (Ok (Bound wr), w1) ->
  let frame_info := w_frame_info wr in
  w_spell wr = self
  ∧ ∃ fi w2,
      FrameInfo_file_info rt frame_info w1 = (Ok fi, w2)
      ∧ reads w2 = reads w1 ∧ next_id w2 = next_id w1
      ∧ call frame_info ∈ line_nodes fi (f_lineno (frame frame_info))
      ∧ is_attr_call (func_name self) (call frame_info) = true
      ∧ _attr_call_at fi (f_lineno (frame frame_info)) (func_name self)
        = Ok (Some (call frame_info)).
Proof.
  destruct stack as [|fr back]; [done|]. rewrite Spell_get_unfold.
  destruct (skip_excluded (excluded w) fr back) as [fr'|e]; [|done].
  destruct (FileInfo_for_frame rt fr' w) as [[fi|e] w'] eqn:Efi; [|done].
  destruct (_attr_call_at fi (f_lineno fr') (func_name self))
    as [[c|]|e] eqn:Ec; [|done..].
  intros [= <- <-]. simpl. split; [done|].
  unfold FileInfo_for_frame in Efi.
  destruct (file_info_again _ _ _ _ _ Efi) as (w2 & H2 & Hr & Hi).
  exists fi, w2. unfold FrameInfo_file_info, FileInfo_for_frame. simpl.
  do 3 (split; [done|]).
  unfold _attr_call_at in Ec.
  destruct (List.filter (is_attr_call (func_name self))
              (line_nodes fi (f_lineno fr'))) as [|a [|b l]] eqn:Ef;
    [done| |done].
  injection Ec as ->.
  assert (Hc : In c (List.filter (is_attr_call (func_name self))
                       (line_nodes fi (f_lineno fr')))).
  { rewrite Ef. by left. }
  apply filter_In in Hc as [Hc1 Hc2]. split; [by apply list_elem_of_In|].
  split; [done|]. unfold _attr_call_at. by rewrite Ef.
Qed.

(** ** wrap_module *)

Lemma spells_of_lookup globs name s :
  spells_of globs !! name = Some s ↔ globs !! name = Some (SpellValue s).
Proof.
  unfold spells_of. rewrite lookup_omap.
  destruct (globs !! name) as [[s'|o]|]; simpl; split; try done.
  - by intros [= ->].
  - by intros [= ->].
Qed.

(** X19: [wrap_module] replaces the entry of [sys.modules] for the name
    by a wrapper around the old entry whose class carries exactly the
    values of the namespace that are spells, under their names; the
    other entries stay.  It registers the code of [__getattribute__] and
    changes nothing else of the process state.  For a name that is not
    in [sys.modules] it ends with [KeyError] and leaves [sys.modules] as
    it was, the code being registered all the same. *)
Theorem wrap_module_spec (getattribute : code) (module_name : string)
    (globs : gmap string global_value) (st : interpreter) :
  let st' := (wrap_module getattribute module_name globs st).2 in
  (forall module, sys_modules st !! module_name = Some module ->
     (wrap_module getattribute module_name globs st).1 = Wrapped
     ∧ ∃ class_attrs,
         sys_modules st' !! module_name
         = Some (ModuleWrapper class_attrs module)
         ∧ forall name s, class_attrs !! name = Some s ↔
                          globs !! name = Some (SpellValue s))
  ∧ (sys_modules st !! module_name = None ->
       (wrap_module getattribute module_name globs st).1 = KeyError module_name
       ∧ sys_modules st' = sys_modules st)
  ∧ (forall other, other ≠ module_name ->
       sys_modules st' !! other = sys_modules st !! other)
  ∧ excluded (process st') = {[getattribute]} ∪ excluded (process st)
  ∧ file_info_cache (process st') = file_info_cache (process st)
  ∧ next_id (process st') = next_id (process st)
  ∧ reads (process st') = reads (process st)
  ∧ runs (process st') = runs (process st).
Proof.
  intros st'. unfold st', wrap_module.
  destruct (sys_modules st !! module_name) as [m|] eqn:E; simpl.
  - split; [|split; [done|split; [|done]]].
    + intros module [= <-]. split; [done|]. exists (spells_of globs).
      split; [by rewrite lookup_insert_eq|]. apply spells_of_lookup.
    + intros other Hne. by rewrite lookup_insert_ne.
  - split; [done|]. split; [done|]. split; [done|]. done.
Qed.

(** X20: after [wrap_module], reading a spell of the namespace through
    the wrapper is the same as reading it from the caller's frame with
    the caller's stack: the frame of [__getattribute__] that sits in
    between is skipped, because the class statement registered its
    code. *)
Theorem wrapped_attribute_access rt (getattribute : code)
    (module_name item : string) (globs : gmap string global_value)
    (st : interpreter) (module : module_value) (s : Spell)
    (getattribute_frame caller : FrameType) (rest : list FrameType) :
  sys_modules st !! module_name = Some module ->
  globs !! item = Some (SpellValue s) ->
  f_code getattribute_frame = getattribute ->
  let st' := (wrap_module getattribute module_name globs st).2 in
  ∃ wrapper,
    sys_modules st' !! module_name = Some wrapper
    ∧ option_map (fun access => access (process st'))
        (ModuleWrapper_getattribute rt getattribute_frame wrapper item
           (caller :: rest))
      = Some (Spell_get rt s (caller :: rest) (process st')).
Proof.
  intros Hmod Hitem Hcode st'. unfold st', wrap_module.
  rewrite Hmod. simpl. rewrite lookup_insert_eq. eexists. split; [done|].
  simpl. rewrite (proj2 (spells_of_lookup globs item s) Hitem). simpl.
  f_equal. rewrite !Spell_get_unfold. simpl.
  by rewrite decide_True by (rewrite Hcode; set_solver).
Qed.

(** ** Instances of the further properties *)


(** Line 5 of the one-line document [x = f()]. *)
Lemma line_without_nodes_witness :
  let doc := Samples.document Samples.simple_assign in
  let fr := Samples.module_frame 5 in
  _attr_call_at doc 5 "f" = Ok None
  ∧ _plain_call_at doc fr (spell_object Samples.the_spell) = Raise (found 0).
Proof.
  intros doc fr.
  destruct (line_without_nodes 0 "sample.py" "" Samples.simple_assign fr "f"
              (spell_object Samples.the_spell)) as (H1 & _ & H2); [|by split].
  intros n Hn%elem_of_walk. vm_compute in Hn.
  repeat (apply elem_of_cons in Hn as [->|Hn]; [by vm_compute|]).
  by apply elem_of_nil in Hn.
Defined.

(** [if c: x = f()]: the line holds the [if] and the assignment. *)
Lemma line_with_two_statements_witness :
  let doc := Samples.document MoreSamples.one_line_if in
  let fr := Samples.module_frame 1 in
  let n1 := Samples.at_path MoreSamples.one_line_if [0%nat] in
  let n2 := Samples.at_path MoreSamples.one_line_if [0; 1]%nat in
  n1 ∈ line_nodes doc 1 ∧ n2 ∈ line_nodes doc 1
  ∧ stmt_containing_node n1 = Ok n1 ∧ stmt_containing_node n2 = Ok n2
  ∧ n1 ≠ n2
  ∧ _plain_call_at doc fr (spell_object Samples.the_spell) = Raise (found 2).
Proof.
  intros doc fr n1 n2.
  assert (H1 : n1 ∈ line_nodes doc 1) by (vm_compute; left).
  assert (H2 : n2 ∈ line_nodes doc 1) by (vm_compute; do 2 right; left).
  assert (Hne : n1 ≠ n2) by (vm_compute; discriminate).
  do 2 (split; [done|]). do 2 (split; [reflexivity|]). split; [done|].
  destruct (line_with_two_statements 0 "sample.py" ""
              MoreSamples.one_line_if fr (spell_object Samples.the_spell)
              n1 n2 n1 n2 H1 H2 eq_refl eq_refl Hne) as [_ H].
  destruct (H [n1; n1; n2; n2; n2; n2] eq_refl) as [_ Hraise].
  exact Hraise.
Defined.

(** [x = list(map(f, xs))]: the spell is called by [map]. *)
Lemma plain_call_no_match_witness :
  let doc := Samples.document MoreSamples.mapped in
  let fr := MoreSamples.frame_with_builtins 1 in
  let val := spell_object Samples.the_spell in
  let calls := [Samples.at_path MoreSamples.mapped [0; 1]%nat;
                Samples.at_path MoreSamples.mapped [0; 1; 1]%nat] in
  _calls_in_stmt_at_line doc 1 = Ok calls
  ∧ _plain_call_at doc fr val = Raise (found 0).
Proof.
  intros doc fr val calls. split; [reflexivity|].
  apply (plain_call_no_match doc fr val calls); [reflexivity|].
  intros n Hn.
  repeat (apply elem_of_cons in Hn as [->|Hn]; [reflexivity|]).
  by apply elem_of_nil in Hn.
Defined.

(** [x = f(g(y) for g in gs)]: [g] is bound inside the generator only. *)
Lemma plain_call_unbound_name_witness :
  let doc := Samples.document MoreSamples.generator_argument in
  let fr := MoreSamples.frame_with_builtins 1 in
  let val := spell_object Samples.the_spell in
  let n := Samples.at_path MoreSamples.generator_argument [0; 1; 1; 0]%nat in
  func_id n = Ok "g"
  ∧ _plain_call_at doc fr val = Raise (NameError "g").
Proof.
  intros doc fr val n. split; [reflexivity|].
  destruct (plain_call_unbound_name doc fr val
              [Samples.at_path MoreSamples.generator_argument [0; 1]%nat; n]
              n "g") as (m & name & Hm & Hid & Hres & Hraise);
    [reflexivity|by right; left|reflexivity..|].
  apply elem_of_cons in Hm as [->|Hm].
  { vm_compute in Hid. injection Hid as <-. vm_compute in Hres. discriminate. }
  apply list_elem_of_singleton in Hm as ->.
  vm_compute in Hid. injection Hid as <-. exact Hraise.
Defined.

(** A path that is not among the files of the run. *)
Lemma failed_load_not_cached_witness :
  let rt := Samples.sample_runtime in
  let w1 := log_read "missing.py" initial_world in
  file_info rt "missing.py" initial_world = (Raise (IOError "missing.py"), w1)
  ∧ file_info rt "missing.py" w1
    = (Raise (IOError "missing.py"), log_read "missing.py" w1).
Proof.
  intros rt w1. split; [reflexivity|].
  by destruct (failed_load_not_cached rt "missing.py" initial_world w1
                 (IOError "missing.py") eq_refl) as (_ & _ & _ & H & _).
Defined.

(** [x = obj.f()], read from its own frame. *)
Lemma get_with_call_witness :
  let rt := Samples.sample_runtime in
  let fr := Samples.access_frame in
  let fi := FileInfo_init 0 "access.py" "x = obj.f()" Samples.attr_call in
  let w1 := (FileInfo_for_frame rt fr initial_world).2 in
  let frame_info :=
    {| frame := fr; call := Samples.at_path Samples.attr_call [0; 1]%nat |} in
  FileInfo_for_frame rt fr initial_world = (Ok fi, w1)
  ∧ Spell_get rt Samples.the_spell [fr] initial_world
    = (Ok (Bound (Spell_getitem Samples.the_spell frame_info)), w1).
Proof.
  intros rt fr fi w1 frame_info. split; [reflexivity|].
  destruct (get_with_call rt Samples.the_spell [fr] initial_world fr [] fr fi
              w1 eq_refl eq_refl eq_refl) as [H _].
  by destruct (H (Samples.at_path Samples.attr_call [0; 1]%nat) [] eq_refl).
Defined.

(** Registering [helper] does not change an access from [access.py]. *)
Lemma unrelated_registration_witness :
  let rt := Samples.sample_runtime in
  let stack := [Samples.access_frame] in
  Forall (fun f => f_code f ≠ Samples.helper_code) stack
  ∧ (Spell_get rt Samples.the_spell stack
       (add_excluded Samples.helper_code initial_world)).1
    = (Spell_get rt Samples.the_spell stack initial_world).1.
Proof.
  intros rt stack.
  assert (H : Forall (fun f => f_code f ≠ Samples.helper_code) stack).
  { repeat constructor. discriminate. }
  split; [done|].
  by rewrite (unrelated_registration rt Samples.the_spell stack
                Samples.helper_code initial_world H).
Defined.

(** The wrapper bound at [x = obj.f()]. *)
Lemma frame_info_document_witness :
  let rt := Samples.sample_runtime in
  let fr := Samples.access_frame in
  let w1 := (Spell_get rt Samples.the_spell [fr] initial_world).2 in
  let wr := Spell_getitem Samples.the_spell
              {| frame := fr;
                 call := Samples.at_path Samples.attr_call [0; 1]%nat |} in
  Spell_get rt Samples.the_spell [fr] initial_world = (Ok (Bound wr), w1)
  ∧ ∃ fi w2, FrameInfo_file_info rt (w_frame_info wr) w1 = (Ok fi, w2)
             ∧ reads w2 = reads w1.
Proof.
  intros rt fr w1 wr. split; [reflexivity|].
  destruct (frame_info_document rt Samples.the_spell [fr] initial_world w1 wr
              eq_refl) as (_ & fi & w2 & H & Hr & _).
  by exists fi, w2.
Defined.

(** The module [m] wrapped, and [m.f] read at [x = obj.f()]. *)
Lemma wrapped_attribute_access_witness :
  let rt := Samples.sample_runtime in
  let st' := (wrap_module Samples.getattribute_code "m" MoreSamples.namespace
                MoreSamples.with_module).2 in
  ∃ wrapper,
    sys_modules st' !! "m" = Some wrapper
    ∧ option_map (fun access => access (process st'))
        (ModuleWrapper_getattribute rt Samples.getattribute_frame wrapper "f"
           [Samples.access_frame])
      = Some (Spell_get rt Samples.the_spell [Samples.access_frame]
                (process st')).
Proof.
  intros rt st'.
  apply (wrapped_attribute_access rt Samples.getattribute_code "m" "f"
           MoreSamples.namespace MoreSamples.with_module (PlainModule 0)
           Samples.the_spell Samples.getattribute_frame Samples.access_frame []);
    reflexivity.
Defined.
